(** * Museum-Search: the aggregation and ranking pipeline of [museums.py]

    A shallow embedding of [Navigator] (the join of exhibits to museums,
    the relevance filter and the grouping by location) together with the
    Python operations it relies on: subscripting of documents, [int()],
    hashing of dictionary keys, insertion-ordered dictionaries, the stable
    [sorted], [reversed], slicing, true division of integers and
    [math.ceil] on IEEE binary64 numbers. *)

From Stdlib Require Import ZArith String Ascii List Bool Lia.
From Stdlib Require Import Permutation Sorted.
From Stdlib Require Import Floats.SpecFloat.
From Stdlib Require Import DecimalString.
Import ListNotations.

Set Warnings "-register-all".

Local Open Scope Z_scope.
Local Open Scope list_scope.

(** ** Python values, exceptions and the error monad *)

(** The exceptions the modelled code can raise. *)
Inductive exn : Type :=
  | KeyError
  | TypeError
  | ValueError
  | IndexError
  | ZeroDivisionError
  | OverflowError.

Inductive result (A : Type) : Type :=
  | Ok (a : A)
  | Raise (e : exn).

Arguments Ok {A} a.
Arguments Raise {A} e.

Definition rbind {A B : Type} (m : result A) (k : A -> result B) : result B :=
  match m with
  | Ok a => k a
  | Raise e => Raise e
  end.

Declare Scope py_scope.
Delimit Scope py_scope with py.
Notation "x <- m ;; k" := (rbind m (fun x => k))
  (at level 61, m at next level, right associativity) : py_scope.

(** The documents of the two MongoDB collections, as Python sees them:
    [None], integers, strings, lists and dictionaries with string keys
    (kept as association lists, first binding wins).  The other BSON
    types (doubles, booleans, dates, object identifiers) are left out. *)
Inductive value : Type :=
  | VNone
  | VInt (n : Z)
  | VStr (s : string)
  | VList (l : list value)
  | VDict (d : list (string * value)).

Definition is_none (v : value) : bool :=
  match v with
  | VNone => true
  | _ => false
  end.

Fixpoint dict_get (d : list (string * value)) (k : string) : option value :=
  match d with
  | [] => None
  | (k', v) :: d' => if String.eqb k' k then Some v else dict_get d' k
  end.

(** [v[k]] for a string [k]: a missing key of a dictionary is a
    [KeyError], subscripting anything else with a string a [TypeError]. *)
Definition getitem (v : value) (k : string) : result value :=
  match v with
  | VDict d =>
      match dict_get d k with
      | Some x => Ok x
      | None => Raise KeyError
      end
  | _ => Raise TypeError
  end.

Notation "v .[ k ]" := (rbind v (fun x => getitem x k))
  (at level 1, left associativity, format "v .[ k ]") : py_scope.

(** *** [int(x)] *)

(** A [str] is held as the bytes of its UTF-8 encoding; [code_points]
    gives its characters back.  A byte sequence that encodes no character
    (a stray continuation byte, an overlong form, a surrogate, a value
    above U+10FFFF) is no [str]; it is read as U+FFFD. *)
Definition byte (c : ascii) : Z := Z.of_N (N_of_ascii c).

Definition is_continuation (c : ascii) : bool :=
  (128 <=? byte c) && (byte c <? 192).

Definition is_surrogate (ch : Z) : bool :=
  (55296 <=? ch) && (ch <=? 57343).

Fixpoint code_points (s : string) : list Z :=
  match s with
  | EmptyString => []
  | String a s1 =>
      let n := byte a in
      if n <? 128 then n :: code_points s1
      else
        match s1 with
        | EmptyString => [65533]
        | String b s2 =>
            let ch2 := (n - 192) * 64 + (byte b - 128) in
            if (194 <=? n) && (n <? 224) && is_continuation b then
              ch2 :: code_points s2
            else
              match s2 with
              | EmptyString => 65533 :: code_points s1
              | String c s3 =>
                  let ch3 :=
                    ((n - 224) * 64 + (byte b - 128)) * 64 + (byte c - 128) in
                  if (224 <=? n) && (n <? 240) && is_continuation b
                     && is_continuation c && (2048 <=? ch3)
                     && negb (is_surrogate ch3) then
                    ch3 :: code_points s3
                  else
                    match s3 with
                    | EmptyString => 65533 :: code_points s1
                    | String d s4 =>
                        let ch4 :=
                          (((n - 240) * 64 + (byte b - 128)) * 64
                           + (byte c - 128)) * 64 + (byte d - 128) in
                        if (240 <=? n) && (n <? 245) && is_continuation b
                           && is_continuation c && is_continuation d
                           && (65536 <=? ch4) && (ch4 <=? 1114111) then
                          ch4 :: code_points s4
                        else 65533 :: code_points s1
                    end
              end
        end
  end.

(** [Py_ISSPACE]: the white space of the C parser of integers. *)
Definition Py_ISSPACE (c : Z) : bool :=
  (9 <=? c) && (c <=? 13) || (c =? 32).

(** [Py_UNICODE_ISSPACE]: the characters for which [str.isspace] holds. *)
Definition Py_UNICODE_ISSPACE (ch : Z) : bool :=
  (9 <=? ch) && (ch <=? 13) || (28 <=? ch) && (ch <=? 32)
  || (ch =? 0x85) || (ch =? 0xA0) || (ch =? 0x1680)
  || (0x2000 <=? ch) && (ch <=? 0x200A)
  || (ch =? 0x2028) || (ch =? 0x2029) || (ch =? 0x202F)
  || (ch =? 0x205F) || (ch =? 0x3000).

(** The characters with decimal value zero (Unicode 14.0, the database
    of CPython 3.11); each is followed by those of value one to nine. *)
Definition decimal_zeros : list Z :=
  [0x30; 0x660; 0x6F0; 0x7C0; 0x966; 0x9E6; 0xA66; 0xAE6; 0xB66; 0xBE6;
   0xC66; 0xCE6; 0xD66; 0xDE6; 0xE50; 0xED0; 0xF20; 0x1040; 0x1090;
   0x17E0; 0x1810; 0x1946; 0x19D0; 0x1A80; 0x1A90; 0x1B50; 0x1BB0;
   0x1C40; 0x1C50; 0xA620; 0xA8D0; 0xA900; 0xA9D0; 0xA9F0; 0xAA50;
   0xABF0; 0xFF10; 0x104A0; 0x10D30; 0x11066; 0x110F0; 0x11136; 0x111D0;
   0x112F0; 0x11450; 0x114D0; 0x11650; 0x116C0; 0x11730; 0x118E0;
   0x11950; 0x11C50; 0x11D50; 0x11DA0; 0x16A60; 0x16AC0; 0x16B50;
   0x1D7CE; 0x1D7D8; 0x1D7E2; 0x1D7EC; 0x1D7F6; 0x1E140; 0x1E2F0;
   0x1E950; 0x1FBF0].

(** [Py_UNICODE_TODECIMAL] *)
Definition Py_UNICODE_TODECIMAL (ch : Z) : option Z :=
  option_map (fun zero => ch - zero)
    (find (fun zero => (zero <=? ch) && (ch <=? zero + 9)) decimal_zeros).

(** What [int] makes of a character before parsing: the ASCII ones stay,
    other white space becomes a blank, other decimal digits their ASCII
    digit, anything else a question mark. *)
Definition decimal_and_space_to_ascii (ch : Z) : Z :=
  if ch <? 127 then ch
  else if Py_UNICODE_ISSPACE ch then 32
  else
    match Py_UNICODE_TODECIMAL ch with
    | Some d => 48 + d
    | None => 63
    end.

Fixpoint skip_spaces (s : list Z) : list Z :=
  match s with
  | c :: s' => if Py_ISSPACE c then skip_spaces s' else s
  | [] => []
  end.

Definition is_digit (c : Z) : bool := (48 <=? c) && (c <=? 57).

Definition underscore : Z := 95.

(** The scan of the digits, with single underscores between them: the
    value, the number of digits and what follows; [None] for two
    underscores in a row or an underscore at the end. *)
Fixpoint scan_digits (acc digits prev : Z) (s : list Z) :
    option (Z * Z * list Z) :=
  match s with
  | c :: s' =>
      if is_digit c then scan_digits (10 * acc + (c - 48)) (digits + 1) c s'
      else if c =? underscore then
        if prev =? underscore then None else scan_digits acc digits c s'
      else if prev =? underscore then None else Some (acc, digits, s)
  | [] => if prev =? underscore then None else Some (acc, digits, [])
  end.

(** [sys.get_int_max_str_digits()], as the interpreter starts. *)
Definition int_max_str_digits : Z := 4300.

(** [PyLong_FromString] in base 10, on the characters made ASCII: white
    space, a sign, the digits, white space, and nothing more. *)
Definition long_from_string (s : list Z) : option Z :=
  let s1 := skip_spaces s in
  let (negative, s2) :=
    match s1 with
    | 43 :: r => (false, r)
    | 45 :: r => (true, r)
    | _ => (false, s1)
    end in
  match s2 with
  | 95 :: _ => None
  | _ =>
      match scan_digits 0 0 0 s2 with
      | Some (n, digits, rest) =>
          if (digits =? 0) || (int_max_str_digits <? digits) then None
          else
            match skip_spaces rest with
            | [] => Some (if negative then - n else n)
            | _ => None
            end
      | None => None
      end
  end.

Definition int_of_string (s : string) : result Z :=
  match long_from_string (map decimal_and_space_to_ascii (code_points s)) with
  | Some n => Ok n
  | None => Raise ValueError
  end.

Definition py_int (v : value) : result Z :=
  match v with
  | VInt n => Ok n
  | VStr s => int_of_string s
  | _ => Raise TypeError
  end.

(** *** Dictionary keys *)

(** The hashable values: what a Python dictionary is keyed by. *)
Inductive key : Type :=
  | KNone
  | KInt (n : Z)
  | KStr (s : string).

Definition key_eqb (a b : key) : bool :=
  match a, b with
  | KNone, KNone => true
  | KInt x, KInt y => Z.eqb x y
  | KStr x, KStr y => String.eqb x y
  | _, _ => false
  end.

(** Using a value as a key hashes it: lists and dictionaries are
    unhashable. *)
Definition hash (v : value) : result key :=
  match v with
  | VNone => Ok KNone
  | VInt n => Ok (KInt n)
  | VStr s => Ok (KStr s)
  | VList _ | VDict _ => Raise TypeError
  end.

Definition value_of_key (k : key) : value :=
  match k with
  | KNone => VNone
  | KInt n => VInt n
  | KStr s => VStr s
  end.

(** An insertion-ordered dictionary: the entries in the order in which
    their keys were first set. *)
Definition dict (V : Type) : Type := list (key * V).

Section Dict.
Context {V : Type}.

Fixpoint dict_find (k : key) (d : dict V) : option V :=
  match d with
  | [] => None
  | (k', v) :: d' => if key_eqb k' k then Some v else dict_find k d'
  end.

Definition dict_mem (k : key) (d : dict V) : bool :=
  match dict_find k d with
  | Some _ => true
  | None => false
  end.

(** [d[k] = f(d[k])] for a key that is present: the entry keeps its
    place. *)
Fixpoint dict_update (k : key) (f : V -> V) (d : dict V) : dict V :=
  match d with
  | [] => []
  | (k', v) :: d' =>
      if key_eqb k' k then (k', f v) :: d' else (k', v) :: dict_update k f d'
  end.

(** [d[k] = v] for a key that is absent: the entry goes last. *)
Definition dict_add (k : key) (v : V) (d : dict V) : dict V := d ++ [(k, v)].

Definition keys (d : dict V) : list key := map fst d.
Definition values (d : dict V) : list V := map snd d.
End Dict.

(** ** [sorted], [reversed] and slicing *)

Section Sorted.
Context {A : Type}.
Variable rank : A -> nat.

(** [x] goes in front of the first element that does not rank below it. *)
Fixpoint insert_by (x : A) (l : list A) : list A :=
  match l with
  | [] => [x]
  | y :: l' => if (rank x <=? rank y)%nat then x :: l else y :: insert_by x l'
  end.

(** [sorted(l, key=rank)]: ascending and stable. *)
Fixpoint sorted (l : list A) : list A :=
  match l with
  | [] => []
  | x :: l' => insert_by x (sorted l')
  end.

(** [list(reversed(sorted(l, key=rank)))] *)
Definition reversed_sorted (l : list A) : list A := rev (sorted l).

Definition ascending (a b : A) : Prop := (rank a <= rank b)%nat.
Definition descending (a b : A) : Prop := (rank b <= rank a)%nat.

(** The elements of a given rank. *)
Definition of_rank (n : nat) (a : A) : bool := (rank a =? n)%nat.
End Sorted.

(** [p] is an initial segment of [l]. *)
Definition prefix {A : Type} (p l : list A) : Prop := exists rest, l = p ++ rest.

(** [l[:n]]: a negative [n] counts from the end. *)
Definition slice_to {A : Type} (n : Z) (l : list A) : list A :=
  if n <? 0 then firstn (Z.to_nat (Z.of_nat (length l) + n)) l
  else firstn (Z.to_nat n) l.


(** ** IEEE binary64 arithmetic, as Python's [float] *)

(** The format: 53 bits of precision, exponents below 1024.  The
    operations are those of the standard library's specification of IEEE
    arithmetic, [SFdiv], [SFmul] and [SFleb]. *)
Definition prec : Z := 53.
Definition emax : Z := 1024.

Definition float : Type := spec_float.

(** An integer as an exact, not yet rounded, binary number. *)
Definition exact_of_Z (n : Z) : float :=
  match n with
  | Z0 => S754_zero false
  | Zpos p => S754_finite false p 0
  | Zneg p => S754_finite true p 0
  end.

(** [float(n)], as done when an [int] meets a [float] in arithmetic:
    rounded to nearest even, too large an integer is an error. *)
Definition float_of_int (n : Z) : result float :=
  match binary_normalize prec emax n 0 false with
  | S754_infinity _ => Raise OverflowError
  | x => Ok x
  end.

(** [a / b] on integers: the correctly rounded quotient. *)
Definition int_truediv (a b : Z) : result float :=
  if b =? 0 then Raise ZeroDivisionError
  else
    match SFdiv prec emax (exact_of_Z a) (exact_of_Z b) with
    | S754_infinity _ => Raise OverflowError
    | q => Ok q
    end.

(** [x >= y] *)
Definition float_ge (x y : float) : bool := SFleb y x.

(** [n * x] for an integer [n] and a float [x]. *)
Definition int_mul_float (n : Z) (x : float) : result float :=
  (f <- float_of_int n ;; Ok (SFmul prec emax f x))%py.

(** [math.ceil(x)] *)
Definition math_ceil (x : float) : result Z :=
  match x with
  | S754_zero _ => Ok 0
  | S754_infinity _ => Raise OverflowError
  | S754_nan => Raise ValueError
  | S754_finite s m e =>
      let v := if s then Zneg m else Zpos m in
      Ok (if 0 <=? e then v * 2 ^ e else - ((- v) / 2 ^ (- e)))
  end.

(** The literals [0.04] and [0.8]. *)
Definition border_default : float := S754_finite false 5764607523034235 (-57).
Definition select_default : float := S754_finite false 7205759403792794 (-53).

(** ** The two collections and the calls made to them *)

(** What the two services answer: [ExhibitService.get_by_name] the list
    of documents of the text search, [collection.find_one] of the museums
    a document or [None]. *)
Record store : Type := {
  exhibits_find : string -> list value;
  museums_find_one : Z -> value
}.

(** The queries sent to the collections. *)
Inductive call : Type :=
  | FindExhibits (query : string)
  | FindOneMuseum (id : Z).

(** The store and the queries made so far. *)
Record world : Type := {
  db : store;
  calls : list call
}.

(** Computations that query the store and may raise. *)
Definition M (A : Type) : Type := world -> world * result A.

Definition ret {A : Type} (a : A) : M A := fun w => (w, Ok a).

Definition lift {A : Type} (r : result A) : M A := fun w => (w, r).

Definition bind {A B : Type} (m : M A) (k : A -> M B) : M B :=
  fun w =>
    match m w with
    | (w', Ok a) => k a w'
    | (w', Raise e) => (w', Raise e)
    end.

Declare Scope io_scope.
Delimit Scope io_scope with io.
Notation "x <- m ;; k" := (bind m (fun x => k))
  (at level 61, m at next level, right associativity) : io_scope.

Definition log (c : call) (w : world) : world :=
  {| db := db w; calls := calls w ++ [c] |}.

(** [MuseumsService.get_by_id] *)
Definition get_by_id (id : value) : M value :=
  (n <- lift (py_int id) ;;
   fun w => (log (FindOneMuseum n) w, Ok (museums_find_one (db w) n)))%io.

(** [ExhibitService.get_by_name] *)
Definition get_by_name (query : string) : M (list value) :=
  fun w => (log (FindExhibits query) w, Ok (exhibits_find (db w) query)).

(** ** [Navigator] *)

(** The values of the dictionary built by the join. *)
Record museum_entry : Type := {
  name : value;
  locale : value;
  exhibits : list value
}.

Definition append_exhibit (x : value) (m : museum_entry) : museum_entry :=
  {| name := name m; locale := locale m; exhibits := exhibits m ++ [x] |}.

(** [exhibit['data']['museum']['code']] and [exhibit['data']['name']] *)
Definition exhibit_fields (exhibit : value) : result (value * value) :=
  (museum_id <- (Ok exhibit).["data"].["museum"].["code"] ;;
   exhibit_name <- (Ok exhibit).["data"].["name"] ;;
   Ok (museum_id, exhibit_name))%py.

(** [museum['data']['general']['locale']['name']] and
    [museum['data']['general']['name']] *)
Definition museum_fields (museum : value) : result (value * value) :=
  (loc <- (Ok museum).["data"].["general"].["locale"].["name"] ;;
   nam <- (Ok museum).["data"].["general"].["name"] ;;
   Ok (loc, nam))%py.

(** The body of the loop of [__get_museums_with_locales_and_exhibits]. *)
Definition join_step (museums : dict museum_entry) (exhibit : value)
  : M (dict museum_entry) :=
  (fields <- lift (exhibit_fields exhibit) ;;
   let '(museum_id, exhibit_name) := fields in
   if negb (is_none museum_id) && negb (is_none exhibit_name) then
     k <- lift (hash museum_id) ;;
     if dict_mem k museums then
       ret (dict_update k (append_exhibit exhibit_name) museums)
     else
       museum <- get_by_id museum_id ;;
       if negb (is_none museum) then
         mf <- lift (museum_fields museum) ;;
         let '(loc, query) := mf in
         if negb (is_none loc) && negb (is_none query) then
           ret (dict_add k {| name := query; locale := loc;
                              exhibits := [exhibit_name] |} museums)
         else ret museums
       else ret museums
   else ret museums)%io.

Fixpoint join_loop (museums : dict museum_entry) (exhibits : list value)
  : M (dict museum_entry) :=
  match exhibits with
  | [] => ret museums
  | exhibit :: rest =>
      (museums' <- join_step museums exhibit ;; join_loop museums' rest)%io
  end.

(** [Navigator.__get_museums_with_locales_and_exhibits] *)
Definition get_museums_with_locales_and_exhibits (query : string)
  : M (dict museum_entry) :=
  (exhibits <- get_by_name query ;; join_loop [] exhibits)%io.

(** [len(m['exhibits'])] *)
Definition exhibit_count (m : museum_entry) : nat := length (exhibits m).

(** [list(filter(p, l))] for a [p] that may raise. *)
Fixpoint filter_r {A : Type} (p : A -> result bool) (l : list A)
  : result (list A) :=
  match l with
  | [] => Ok []
  | x :: l' =>
      (b <- p x ;;
       r <- filter_r p l' ;;
       Ok (if b then x :: r else r))%py
  end.

(** [len(m['exhibits']) / max_exhibits >= border] *)
Definition ratio_test (border : float) (max_exhibits : nat) (m : museum_entry)
  : result bool :=
  (q <- int_truediv (Z.of_nat (exhibit_count m)) (Z.of_nat max_exhibits) ;;
   Ok (float_ge q border))%py.

(** [Navigator.__filter_relevant_museums] *)
Definition filter_relevant_museums (museums : dict museum_entry)
    (border select : float) : result (list museum_entry) :=
  let res_museums := reversed_sorted exhibit_count (values museums) in
  match res_museums with
  | [] => Raise IndexError
  | top :: _ =>
      let max_exhibits := exhibit_count top in
      (res_museums' <- filter_r (ratio_test border max_exhibits) res_museums ;;
       x <- int_mul_float (Z.of_nat (length res_museums')) select ;;
       n <- math_ceil x ;;
       Ok (slice_to n res_museums'))%py
  end.

(** [locales[k].append(museum)] on a [defaultdict(list)] *)
Definition defaultdict_append {A : Type} (k : key) (x : A)
    (locales : dict (list A)) : dict (list A) :=
  if dict_mem k locales then dict_update k (fun l => l ++ [x]) locales
  else dict_add k [x] locales.

Fixpoint group_loop (locales : dict (list museum_entry))
    (museums : list museum_entry) : result (dict (list museum_entry)) :=
  match museums with
  | [] => Ok locales
  | museum :: rest =>
      (k <- hash (locale museum) ;;
       group_loop (defaultdict_append k museum locales) rest)%py
  end.

(** [locales[l]] *)
Definition group_of {A : Type} (locales : dict (list A)) (l : key) : list A :=
  match dict_find l locales with
  | Some ms => ms
  | None => []
  end.

(** The part of [get_sorted_locales] after the relevance filter. *)
Definition group_by_locale (museums : list museum_entry) (limit : Z)
  : result (list (key * list museum_entry)) :=
  (locales <- group_loop [] museums ;;
   let sorted_locales :=
     reversed_sorted (fun l => length (group_of locales l)) (keys locales) in
   let sorted_locales' :=
     slice_to (Z.min limit (Z.of_nat (length sorted_locales))) sorted_locales in
   Ok (map (fun l => (l, group_of locales l)) sorted_locales'))%py.

(** [Navigator.get_sorted_locales] *)
Definition get_sorted_locales (query : string) (limit : Z)
  : M (list (key * list museum_entry)) :=
  (joined <- get_museums_with_locales_and_exhibits query ;;
   museums <- lift (filter_relevant_museums joined border_default select_default) ;;
   lift (group_by_locale museums limit))%io.

(** ** Vocabulary of the properties *)

(** [1.0] *)
Definition float_one : float := S754_finite false 4503599627370496 (-52).

(** A float [x] with [0 < x <= 1.0]. *)
Definition unit_float (x : float) : bool :=
  valid_binary prec emax x && SFltb (S754_zero false) x && SFleb x float_one.

(** [sys.maxsize]: no Python sequence is longer. *)
Definition sys_maxsize : Z := 2 ^ 63 - 1.

(** An exhibit both of whose fields are there and not [None]. *)
Definition valid_exhibit (exhibit : value) : option (value * value) :=
  match exhibit_fields exhibit with
  | Ok (museum_id, exhibit_name) =>
      if negb (is_none museum_id) && negb (is_none exhibit_name)
      then Some (museum_id, exhibit_name) else None
  | Raise _ => None
  end.

(** The dictionary key and the name of a valid exhibit. *)
Definition exhibit_key (exhibit : value) : option (key * value) :=
  match valid_exhibit exhibit with
  | Some (museum_id, exhibit_name) =>
      match hash museum_id with
      | Ok k => Some (k, exhibit_name)
      | Raise _ => None
      end
  | None => None
  end.

(** The identifier [k] leads to a museum with a name and a locale. *)
Definition resolves (s : store) (k : key) : bool :=
  match py_int (value_of_key k) with
  | Ok i =>
      let museum := museums_find_one s i in
      negb (is_none museum) &&
      match museum_fields museum with
      | Ok (loc, nam) => negb (is_none loc) && negb (is_none nam)
      | Raise _ => false
      end
  | Raise _ => false
  end.

(** A valid exhibit whose museum is not found, or found without a name
    or a locale. *)
Definition unresolved (s : store) (exhibit : value) : bool :=
  match exhibit_key exhibit with
  | Some (k, _) => negb (resolves s k)
  | None => false
  end.

(** The names of the valid exhibits of museum [k], in the order of the
    search result. *)
Definition names_of (k : key) (exhibits : list value) : list value :=
  flat_map (fun e =>
    match exhibit_key e with
    | Some (k', n) => if key_eqb k' k then [n] else []
    | None => []
    end) exhibits.

(** The identifiers of the valid exhibits. *)
Definition valid_ids (exhibits : list value) : list key :=
  flat_map (fun e =>
    match exhibit_key e with
    | Some (k, _) => [k]
    | None => []
    end) exhibits.

(** The keys of a list, each at its first occurrence. *)
Fixpoint first_seen (l : list key) : list key :=
  match l with
  | [] => []
  | k :: l' => k :: filter (fun k' => negb (key_eqb k k')) (first_seen l')
  end.

Definition is_lookup (c : call) : bool :=
  match c with
  | FindOneMuseum _ => true
  | FindExhibits _ => false
  end.

(** The number of [find_one] queries among the calls. *)
Definition lookups (cs : list call) : nat := length (filter is_lookup cs).

(** Every step of the join goes through on [exhibit]: its fields are
    there, its identifier can be hashed and converted, and the museum it
    leads to, if any, has its fields. *)
Definition well_formed (s : store) (exhibit : value) : bool :=
  match exhibit_fields exhibit with
  | Raise _ => false
  | Ok (museum_id, exhibit_name) =>
      if negb (is_none museum_id) && negb (is_none exhibit_name) then
        match hash museum_id, py_int museum_id with
        | Ok _, Ok i =>
            let museum := museums_find_one s i in
            is_none museum ||
            match museum_fields museum with
            | Ok _ => true
            | Raise _ => false
            end
        | _, _ => false
        end
      else true
  end.

(** The key of the locale of a museum. *)
Definition locale_key (m : museum_entry) : option key :=
  match hash (locale m) with
  | Ok k => Some k
  | Raise _ => None
  end.

Definition has_locale (l : key) (m : museum_entry) : bool :=
  match locale_key m with
  | Some k => key_eqb k l
  | None => false
  end.

Definition locale_keys (museums : list museum_entry) : list key :=
  flat_map (fun m =>
    match locale_key m with
    | Some k => [k]
    | None => []
    end) museums.

(** The position of the first occurrence of [k], the length of the list
    if there is none. *)
Fixpoint index_of (k : key) (l : list key) : nat :=
  match l with
  | [] => O
  | k' :: l' => if key_eqb k' k then O else S (index_of k l')
  end.

(** [a] comes somewhere before [b] in [l]. *)
Definition precedes {A : Type} (a b : A) (l : list A) : Prop :=
  exists l1 l2 l3, l = l1 ++ a :: l2 ++ b :: l3.

(** The survivors of the ratio test. *)
Definition ratio_ok (border : float) (max_exhibits : nat) (m : museum_entry)
  : bool :=
  match ratio_test border max_exhibits m with
  | Ok b => b
  | Raise _ => false
  end.

(** The ways a step of the join can go through. *)
Inductive step_outcome (museums : dict museum_entry) (exhibit : value)
    (w : world) : world -> dict museum_entry -> Prop :=
  | step_skip :
      exhibit_key exhibit = None -> valid_exhibit exhibit = None ->
      step_outcome museums exhibit w w museums
  | step_append k n :
      exhibit_key exhibit = Some (k, n) ->
      dict_mem k museums = true ->
      step_outcome museums exhibit w w
        (dict_update k (append_exhibit n) museums)
  | step_create k n i loc nam :
      exhibit_key exhibit = Some (k, n) ->
      dict_mem k museums = false ->
      py_int (value_of_key k) = Ok i ->
      resolves (db w) k = true ->
      museum_fields (museums_find_one (db w) i) = Ok (loc, nam) ->
      step_outcome museums exhibit w (log (FindOneMuseum i) w)
        (dict_add k {| name := nam; locale := loc; exhibits := [n] |} museums)
  | step_unresolved k n i :
      exhibit_key exhibit = Some (k, n) ->
      dict_mem k museums = false ->
      py_int (value_of_key k) = Ok i ->
      resolves (db w) k = false ->
      step_outcome museums exhibit w (log (FindOneMuseum i) w) museums.


(** The number of distinct identifiers among the valid exhibits. *)
Definition distinct_ids (exhibits : list value) : nat :=
  length (first_seen (valid_ids exhibits)).

(** A computation that only reads the store: it leaves the store as it
    is, appends its calls to the log, and its calls and its result depend
    on the store alone. *)
Definition reads_store {A : Type} (m : M A) : Prop :=
  forall s, exists tr r, forall cs,
    m {| db := s; calls := cs |} = ({| db := s; calls := cs ++ tr |}, r).

(** ** Sample documents and stores *)

Definition exhibit_doc (code exhibit_name : value) : value :=
  VDict [("data"%string,
          VDict [("museum"%string, VDict [("code"%string, code)]);
                 ("name"%string, exhibit_name)])].

Definition museum_doc (museum_name locale_name : value) : value :=
  VDict [("data"%string,
          VDict [("general"%string,
                  VDict [("name"%string, museum_name);
                         ("locale"%string,
                          VDict [("name"%string, locale_name)])])])].

(** An exhibit without a museum code. *)
Definition exhibit_without_code : value :=
  VDict [("data"%string,
          VDict [("museum"%string, VDict []);
                 ("name"%string, VStr "Vase")])].

(** Two museums of one city, three exhibits. *)
Definition store_a : store := {|
  exhibits_find := fun _ =>
    [exhibit_doc (VInt 1) (VStr "Vase");
     exhibit_doc (VInt 1) (VStr "Urn");
     exhibit_doc (VInt 2) (VStr "Coin")];
  museums_find_one := fun i =>
    if i =? 1 then museum_doc (VStr "M1") (VStr "CityA")
    else if i =? 2 then museum_doc (VStr "M2") (VStr "CityA")
    else VNone
|}.

(** A search without results. *)
Definition store_empty : store := {|
  exhibits_find := fun _ => [];
  museums_find_one := fun _ => VNone
|}.

(** Two exhibits of a museum that is not in the collection. *)
Definition store_missing : store := {|
  exhibits_find := fun _ =>
    [exhibit_doc (VInt 1) (VStr "Vase"); exhibit_doc (VInt 1) (VStr "Urn")];
  museums_find_one := fun _ => VNone
|}.

(** An exhibit whose museum code is no number and whose name is [None]. *)
Definition store_unnamed : store := {|
  exhibits_find := fun _ => [exhibit_doc (VStr "abc") VNone];
  museums_find_one := fun _ => VNone
|}.

(** An exhibit whose museum code is no number. *)
Definition store_bad_code : store := {|
  exhibits_find := fun _ => [exhibit_doc (VStr "abc") (VStr "Vase")];
  museums_find_one := fun _ => VNone
|}.

(** Two museums with one exhibit each, in two cities. *)
Definition store_tie : store := {|
  exhibits_find := fun _ =>
    [exhibit_doc (VInt 1) (VStr "Vase"); exhibit_doc (VInt 2) (VStr "Coin")];
  museums_find_one := fun i =>
    if i =? 1 then museum_doc (VStr "M1") (VStr "CityA")
    else if i =? 2 then museum_doc (VStr "M2") (VStr "CityB")
    else VNone
|}.

Definition fresh (s : store) : world := {| db := s; calls := [] |}.

(** The two entries the join builds from [store_tie]. *)
Definition entry_a : museum_entry :=
  {| name := VStr "M1"; locale := VStr "CityA"; exhibits := [VStr "Vase"] |}.
Definition entry_b : museum_entry :=
  {| name := VStr "M2"; locale := VStr "CityB"; exhibits := [VStr "Coin"] |}.
Definition museums_tie : dict museum_entry := [(KInt 1, entry_a); (KInt 2, entry_b)].

(** A sequence that Python can hold. *)
Definition python_sized {A : Type} (l : list A) : Prop :=
  Z.of_nat (length l) <= sys_maxsize.

(** The number of museums of locale [l]. *)
Definition group_size (museums : list museum_entry) (l : key) : nat :=
  length (filter (has_locale l) museums).

(** The groups by descending size. *)
Definition larger_first (g1 g2 : key * list museum_entry) : Prop :=
  (length (snd g2) <= length (snd g1))%nat.

(** Four museums in three cities, two of the cities with one museum. *)
Definition museums_three_cities : list museum_entry :=
  [ {| name := VStr "M1"; locale := VStr "CityA"; exhibits := [VStr "Vase"; VStr "Urn"] |};
    {| name := VStr "M2"; locale := VStr "CityB"; exhibits := [VStr "Coin"] |};
    {| name := VStr "M3"; locale := VStr "CityC"; exhibits := [VStr "Ring"] |};
    {| name := VStr "M4"; locale := VStr "CityA"; exhibits := [VStr "Bowl"] |} ].


(** ** Vocabulary of the further properties *)

(** The entry the join holds for identifier [k] after the search result
    [es]: the name and the locale name of the museum that [int(k)] leads
    to, and the names of the valid exhibits of [k]. *)
Definition entry_for (s : store) (es : list value) (k : key)
  : option museum_entry :=
  match py_int (value_of_key k) with
  | Ok i =>
      match museum_fields (museums_find_one s i) with
      | Ok (loc, nam) =>
          Some {| name := nam; locale := loc; exhibits := names_of k es |}
      | Raise _ => None
      end
  | Raise _ => None
  end.

(** The dictionary of the join in closed form: the identifiers of the
    valid exhibits that resolve, each at its first occurrence, with their
    entries. *)
Definition joined (s : store) (es : list value) : dict museum_entry :=
  flat_map (fun k =>
    match entry_for s es k with
    | Some m => [(k, m)]
    | None => []
    end) (first_seen (filter (resolves s) (valid_ids es))).

(** One museum under two codes, the number [1] and the string ["1"]. *)
Definition store_two_codes : store := {|
  exhibits_find := fun _ =>
    [exhibit_doc (VInt 1) (VStr "Vase"); exhibit_doc (VStr "1") (VStr "Urn")];
  museums_find_one := fun i =>
    if i =? 1 then museum_doc (VStr "M1") (VStr "CityA") else VNone
|}.

(** A search result whose second document lacks the museum code. *)
Definition store_broken : store := {|
  exhibits_find := fun _ =>
    [exhibit_doc (VInt 1) (VStr "Vase"); exhibit_without_code;
     exhibit_doc (VInt 2) (VStr "Coin")];
  museums_find_one := museums_find_one store_a
|}.

(** The number of distinct locales of a sequence of museums. *)
Definition distinct_locales (museums : list museum_entry) : nat :=
  length (first_seen (locale_keys museums)).

(** Museums one of which has a list for its locale. *)
Definition museums_unhashable : list museum_entry :=
  [ {| name := VStr "M1"; locale := VStr "CityA"; exhibits := [VStr "Vase"] |};
    {| name := VStr "M2"; locale := VList [VStr "CityB"]; exhibits := [VStr "Coin"] |} ].

(** ** [Navigator.print_locales] *)

(** [str(n)] for a length. *)
Definition str_of_nat (n : nat) : string :=
  NilZero.string_of_uint (Nat.to_uint n).

(** [s + v] and [v + s] for a string literal [s]: only a string can be
    joined to a string. *)
Definition str_add (s : string) (v : value) : result string :=
  match v with
  | VStr t => Ok (s ++ t)%string
  | _ => Raise TypeError
  end.

Definition add_str (v : value) (s : string) : result string :=
  match v with
  | VStr t => Ok (t ++ s)%string
  | _ => Raise TypeError
  end.

(** The lines a piece of code has printed, and how it ended. *)
Definition printed : Type := (list string * result unit)%type.

(** [print(line)], for a line whose computation may raise. *)
Definition print (line : result string) : printed :=
  match line with
  | Ok s => ([s], Ok tt)
  | Raise x => ([], Raise x)
  end.

(** [p] and then, if it has not raised, [q]. *)
Definition and_then (p q : printed) : printed :=
  match p with
  | (out, Ok _) => (out ++ fst q, snd q)
  | (out, Raise x) => (out, Raise x)
  end.

(** [for x in l: f(x)] *)
Fixpoint print_each {A : Type} (f : A -> printed) (l : list A) : printed :=
  match l with
  | [] => ([], Ok tt)
  | x :: l' => and_then (f x) (print_each f l')
  end.

(** The body of the loop over the museums of a location. *)
Definition print_museum (museum : museum_entry) : printed :=
  and_then
    (print (str_add "  " (name museum)))
    (print_each (fun exhibit => print (str_add "    " exhibit))
       (slice_to (Z.min 5 (Z.of_nat (length (exhibits museum))))
          (exhibits museum))).

(** The body of the loop over the locations. *)
Definition print_locale (locale : key * list museum_entry) : printed :=
  and_then
    (print
       (if (length (snd locale) =? 1)%nat then
          add_str (value_of_key (fst locale)) " - 1 музей:"
        else
          (s <- add_str (value_of_key (fst locale)) " - " ;;
           Ok ((s ++ str_of_nat (length (snd locale))) ++ " музеев:")%string)%py))
    (print_each print_museum (snd locale)).

(** The first line. *)
Definition header (n : nat) : string :=
  (("Найдены музеи в " ++ str_of_nat n) ++ " городах!")%string.

(** [Navigator.print_locales] *)
Definition print_locales (query : string) (w : world) : world * printed :=
  match get_sorted_locales query 7 w with
  | (w', Ok locales) =>
      (w', and_then (print (Ok (header (length locales))))
             (print_each print_locale locales))
  | (w', Raise x) => (w', ([], Raise x))
  end.

(** The text of a string value. *)
Definition text (v : value) : string :=
  match v with
  | VStr s => s
  | _ => EmptyString
  end.

Definition is_str (v : value) : bool :=
  match v with
  | VStr _ => true
  | _ => false
  end.

(** The lines of a museum and of a location, when all that is printed
    of them is text. *)
Definition museum_lines (m : museum_entry) : list string :=
  ("  " ++ text (name m))%string ::
  map (fun e => ("    " ++ text e)%string) (firstn 5 (exhibits m)).

Definition locale_title (locale : key * list museum_entry) : string :=
  if (length (snd locale) =? 1)%nat then
    (text (value_of_key (fst locale)) ++ " - 1 музей:")%string
  else
    (((text (value_of_key (fst locale)) ++ " - ")
        ++ str_of_nat (length (snd locale))) ++ " музеев:")%string.

Definition locale_lines (locale : key * list museum_entry) : list string :=
  locale_title locale :: flat_map museum_lines (snd locale).

(** All that [print_locales] prints of the locations is text: their
    names, the names of their museums and the first five exhibit names of
    each museum. *)
Definition printable (locales : list (key * list museum_entry)) : Prop :=
  Forall (fun locale =>
    is_str (value_of_key (fst locale)) = true /\
    Forall (fun m =>
      is_str (name m) = true /\
      Forall (fun e => is_str e = true) (firstn 5 (exhibits m)))
      (snd locale)) locales.

(** A museum with six exhibits, the sixth of which is no text. *)
Definition store_six : store := {|
  exhibits_find := fun _ =>
    [exhibit_doc (VInt 1) (VStr "E1"); exhibit_doc (VInt 1) (VStr "E2");
     exhibit_doc (VInt 1) (VStr "E3"); exhibit_doc (VInt 1) (VStr "E4");
     exhibit_doc (VInt 1) (VStr "E5"); exhibit_doc (VInt 1) (VInt 6)];
  museums_find_one := fun i =>
    if i =? 1 then museum_doc (VStr "M1") (VStr "CityA") else VNone
|}.

(** A museum whose name is a number. *)
Definition store_numbered : store := {|
  exhibits_find := fun _ => [exhibit_doc (VInt 1) (VStr "Vase")];
  museums_find_one := fun i =>
    if i =? 1 then museum_doc (VInt 17) (VStr "CityA") else VNone
|}.

(** * Properties *)

(** ** The error monad *)

Lemma rbind_Ok {A B : Type} (m : result A) (k : A -> result B) (b : B) :
  rbind m k = Ok b -> exists a, m = Ok a /\ k a = Ok b.
Proof.
  destruct m as [a|e]; simpl; intros H.
  - exists a; auto.
  - discriminate.
Qed.

Ltac ok_inv H :=
  let a := fresh "a" in
  let Ha := fresh "Ha" in
  apply rbind_Ok in H; destruct H as (a & Ha & H).

(** ** [sorted] is a stable sort *)

Section SortedFacts.
Context {A : Type}.
Variable rank : A -> nat.

Lemma insert_by_perm (x : A) (l : list A) :
  Permutation (insert_by rank x l) (x :: l).
Proof.
  induction l as [|y l IH]; simpl.
  - apply Permutation_refl.
  - destruct (rank x <=? rank y)%nat.
    + apply Permutation_refl.
    + eapply perm_trans; [apply perm_skip, IH | apply perm_swap].
Qed.

Lemma sorted_perm (l : list A) : Permutation (sorted rank l) l.
Proof.
  induction l as [|x l IH]; simpl.
  - constructor.
  - eapply perm_trans; [apply insert_by_perm | apply perm_skip, IH].
Qed.

Lemma insert_by_ascending (x : A) (l : list A) :
  StronglySorted (ascending rank) l -> StronglySorted (ascending rank) (insert_by rank x l).
Proof.
  induction 1 as [|y l Hl IH Hy]; simpl.
  - repeat constructor.
  - destruct (rank x <=? rank y)%nat eqn:E.
    + apply Nat.leb_le in E.
      constructor; [constructor; assumption|].
      constructor; [exact E|].
      apply Forall_impl with (P := (ascending rank) y); [|exact Hy].
      unfold ascending; intros; lia.
    + apply Nat.leb_gt in E.
      constructor; [exact IH|].
      apply Forall_forall; intros z Hz.
      apply (Permutation_in _ (insert_by_perm x l)) in Hz.
      destruct Hz as [<-|Hz].
      * unfold ascending; lia.
      * rewrite Forall_forall in Hy; auto.
Qed.

Lemma sorted_ascending (l : list A) : StronglySorted (ascending rank) (sorted rank l).
Proof.
  induction l; simpl; [constructor | apply insert_by_ascending; assumption].
Qed.

Lemma insert_by_filter (n : nat) (x : A) (l : list A) :
  filter (of_rank rank n) (insert_by rank x l) = filter (of_rank rank n) (x :: l).
Proof.
  induction l as [|y l IH]; [reflexivity|].
  cbn [insert_by].
  destruct (rank x <=? rank y)%nat eqn:E; [reflexivity|].
  apply Nat.leb_gt in E.
  cbn [filter] in *. rewrite IH. unfold of_rank.
  destruct (rank x =? n)%nat eqn:Ex; [|reflexivity].
  apply Nat.eqb_eq in Ex.
  destruct (rank y =? n)%nat eqn:Ey; [|reflexivity].
  apply Nat.eqb_eq in Ey. lia.
Qed.

(** Stability: the elements of one rank keep the order of the input. *)
Lemma sorted_stable (n : nat) (l : list A) :
  filter (of_rank rank n) (sorted rank l) = filter (of_rank rank n) l.
Proof.
  induction l as [|x l IH]; [reflexivity|].
  cbn [sorted]. rewrite insert_by_filter. cbn [filter]. rewrite IH. reflexivity.
Qed.

Lemma StronglySorted_app_intro (R : A -> A -> Prop) (l1 l2 : list A) :
  StronglySorted R l1 -> StronglySorted R l2 ->
  (forall a b, In a l1 -> In b l2 -> R a b) ->
  StronglySorted R (l1 ++ l2).
Proof.
  induction 1 as [|a l1 H1 IH Ha]; simpl; intros H2 H12; [assumption|].
  constructor.
  - apply IH; [assumption|]. intros; apply H12; simpl; auto.
  - apply Forall_app; split; [assumption|].
    apply Forall_forall; intros b Hb. apply H12; simpl; auto.
Qed.

Lemma StronglySorted_rev (R : A -> A -> Prop) (l : list A) :
  StronglySorted R l -> StronglySorted (fun a b => R b a) (rev l).
Proof.
  induction 1 as [|a l Hl IH Ha]; simpl; [constructor|].
  apply StronglySorted_app_intro; [assumption | repeat constructor |].
  intros x y Hx [<-|[]]. apply in_rev in Hx.
  rewrite Forall_forall in Ha; auto.
Qed.

Lemma StronglySorted_filter (R : A -> A -> Prop) (p : A -> bool) (l : list A) :
  StronglySorted R l -> StronglySorted R (filter p l).
Proof.
  induction 1 as [|a l Hl IH Ha]; simpl; [constructor|].
  destruct (p a); [|assumption].
  constructor; [assumption|].
  rewrite Forall_forall in *. intros x Hx. apply filter_In in Hx. apply Ha, Hx.
Qed.

Lemma StronglySorted_firstn (R : A -> A -> Prop) (k : nat) (l : list A) :
  StronglySorted R l -> StronglySorted R (firstn k l).
Proof.
  intros H; revert k.
  induction H as [|a l Hl IH Ha]; intros [|k]; simpl; try constructor.
  - apply IH.
  - rewrite Forall_forall in *. intros x Hx. apply Ha.
    rewrite <- (firstn_skipn k l). apply in_or_app; auto.
Qed.

Lemma reversed_sorted_perm (l : list A) : Permutation (reversed_sorted rank l) l.
Proof.
  unfold reversed_sorted.
  eapply perm_trans; [apply Permutation_sym, Permutation_rev | apply sorted_perm].
Qed.

Lemma reversed_sorted_descending (l : list A) :
  StronglySorted (descending rank) (reversed_sorted rank l).
Proof.
  unfold reversed_sorted.
  apply (StronglySorted_rev (ascending rank)), sorted_ascending.
Qed.

(** Reversing the stable (ascending rank) sort reverses the order within each
    rank. *)
Lemma reversed_sorted_ties (n : nat) (l : list A) :
  filter (of_rank rank n) (reversed_sorted rank l) = rev (filter (of_rank rank n) l).
Proof.
  unfold reversed_sorted. rewrite filter_rev, sorted_stable. reflexivity.
Qed.

Lemma reversed_sorted_length (l : list A) :
  length (reversed_sorted rank l) = length l.
Proof. apply Permutation_length, reversed_sorted_perm. Qed.
End SortedFacts.

(** ** Slices and prefixes *)

Lemma slice_to_firstn {A : Type} (n : Z) (l : list A) :
  exists k, slice_to n l = firstn k l.
Proof.
  unfold slice_to. destruct (n <? 0); eexists; reflexivity.
Qed.

Lemma slice_to_nonneg {A : Type} (n : Z) (l : list A) :
  0 <= n -> slice_to n l = firstn (Z.to_nat n) l.
Proof.
  intros H. unfold slice_to.
  destruct (n <? 0) eqn:E; [apply Z.ltb_lt in E; lia | reflexivity].
Qed.

Lemma filter_firstn_prefix {A : Type} (p : A -> bool) (k : nat) (l : list A) :
  prefix (filter p (firstn k l)) (filter p l).
Proof.
  exists (filter p (skipn k l)).
  rewrite <- filter_app, firstn_skipn. reflexivity.
Qed.

(** ** Rounding to binary64 *)

(** What is needed of the arithmetic: a positive number well inside the
    range of binary64 rounds to a positive finite number, [n / n] is
    exactly [1.0], and the ceiling of a positive number is at least 1. *)

Lemma digits2_pos_size (p : positive) : digits2_pos p = Pos.size p.
Proof. induction p; simpl; congruence. Qed.

(** The number of binary digits is the logarithm plus one. *)
Lemma Zdigits2_log2 (m : Z) : 0 < m -> Zdigits2 m = Z.log2 m + 1.
Proof.
  destruct m as [|p|p]; try lia. intros _. simpl.
  rewrite digits2_pos_size. destruct p; simpl; lia.
Qed.

Lemma shr_1_m (mrs : shr_record) :
  0 <= shr_m mrs -> shr_m (shr_1 mrs) = shr_m mrs / 2.
Proof.
  destruct mrs as [m r s]; simpl. intros H.
  destruct m as [|[p|p|]|p]; try lia; simpl.
  - reflexivity.
  - rewrite (Pos2Z.inj_xI p). apply (Z.div_unique _ 2 _ 1); lia.
  - rewrite (Pos2Z.inj_xO p). apply (Z.div_unique _ 2 _ 0); lia.
  - reflexivity.
Qed.

(** Shifting right [p] times divides the mantissa by [2 ^ p]. *)
Lemma iter_shr_1_m (p : positive) (mrs : shr_record) :
  0 <= shr_m mrs -> shr_m (iter_pos shr_1 p mrs) = shr_m mrs / 2 ^ Zpos p.
Proof.
  revert mrs. induction p as [p IH|p IH|]; intros mrs H; cbn [iter_pos].
  - assert (Hp : 0 < 2 ^ Z.pos p) by (apply Z.pow_pos_nonneg; lia).
    assert (E : 2 ^ Z.pos p~1 = 2 * 2 ^ Z.pos p * 2 ^ Z.pos p).
    { rewrite (Pos2Z.inj_xI p).
      replace (2 * Z.pos p + 1) with (1 + Z.pos p + Z.pos p) by lia.
      rewrite !Z.pow_add_r by lia. reflexivity. }
    assert (H1 : 0 <= shr_m (shr_1 mrs))
      by (rewrite shr_1_m by assumption; apply Z.div_pos; lia).
    assert (H2 : 0 <= shr_m (iter_pos shr_1 p (shr_1 mrs)))
      by (rewrite IH by assumption; apply Z.div_pos; lia).
    rewrite IH, IH, shr_1_m, E by assumption.
    rewrite !Z.div_div by lia. f_equal. lia.
  - assert (Hp : 0 < 2 ^ Z.pos p) by (apply Z.pow_pos_nonneg; lia).
    assert (E : 2 ^ Z.pos p~0 = 2 ^ Z.pos p * 2 ^ Z.pos p).
    { rewrite (Pos2Z.inj_xO p).
      replace (2 * Z.pos p) with (Z.pos p + Z.pos p) by lia.
      rewrite !Z.pow_add_r by lia. reflexivity. }
    assert (H2 : 0 <= shr_m (iter_pos shr_1 p mrs))
      by (rewrite IH by assumption; apply Z.div_pos; lia).
    rewrite IH, IH, E by assumption.
    rewrite !Z.div_div by lia. reflexivity.
  - rewrite shr_1_m by assumption. reflexivity.
Qed.

Lemma shr_record_of_loc_m m l : shr_m (shr_record_of_loc m l) = m.
Proof. destruct l as [|[]]; reflexivity. Qed.

Lemma fexp_eq x : fexp prec emax x = Z.max (x - 53) (-1074).
Proof. reflexivity. Qed.

(** Bringing a positive mantissa to the precision of the format keeps it
    positive and keeps its magnitude, as long as the number is not below
    the smallest subnormal. *)
Lemma shr_fexp_spec (m e : Z) (l : location) :
  0 < m -> -1074 < Z.log2 m + 1 + e ->
  exists mrs e1,
    shr_fexp prec emax m e l = (mrs, e1) /\
    0 < shr_m mrs /\
    Z.log2 (shr_m mrs) + e1 = Z.log2 m + e /\
    e1 = Z.max e (fexp prec emax (Z.log2 m + 1 + e)).
Proof.
  intros Hm Hd. unfold shr_fexp. rewrite Zdigits2_log2 by assumption.
  rewrite fexp_eq. unfold shr.
  destruct (Z.max (Z.log2 m + 1 + e - 53) (-1074) - e) as [|p|p] eqn:En.
  - eexists _, _; split; [reflexivity|]. rewrite shr_record_of_loc_m. lia.
  - eexists _, _; split; [reflexivity|].
    rewrite iter_shr_1_m by (rewrite shr_record_of_loc_m; lia).
    rewrite shr_record_of_loc_m.
    assert (Hp : Z.pos p <= Z.log2 m) by lia.
    assert (H2 : 2 ^ Z.pos p <= m).
    { apply Z.le_trans with (2 ^ Z.log2 m).
      - apply Z.pow_le_mono_r; lia.
      - apply Z.log2_spec; lia. }
    rewrite <- Z.shiftr_div_pow2 by lia.
    rewrite Z.log2_shiftr by lia.
    rewrite Z.shiftr_div_pow2 by lia.
    split; [apply Z.div_str_pos; lia | lia].
  - eexists _, _; split; [reflexivity|]. rewrite shr_record_of_loc_m. lia.
Qed.

Lemma round_nearest_even_bounds m l :
  m <= round_nearest_even m l <= m + 1.
Proof.
  destruct l as [|[]]; simpl; try lia. destruct (Z.even m); lia.
Qed.

(** Rounding a positive number between the smallest subnormal and
    [2 ^ 1023] gives a positive finite number of about the same
    magnitude. *)
Lemma binary_round_aux_finite (s : bool) (m e : Z) (l : location) :
  0 < m -> -1074 < Z.log2 m + 1 + e -> e <= 971 -> Z.log2 m + e <= 1022 ->
  exists m' e',
    binary_round_aux prec emax s m e l = S754_finite s m' e' /\
    Z.log2 m + e <= Z.log2 (Zpos m') + e' <= Z.log2 m + e + 1 /\
    e' <= 971.
Proof.
  intros Hm Hd He Hu. unfold binary_round_aux.
  destruct (shr_fexp_spec m e l Hm Hd) as (r1 & e1 & -> & Hr1 & Hl1 & He1).
  pose proof (round_nearest_even_bounds (shr_m r1) (loc_of_shr_record r1)) as Hb.
  set (m2 := round_nearest_even (shr_m r1) (loc_of_shr_record r1)) in *.
  assert (Hlo : Z.log2 (shr_m r1) <= Z.log2 m2) by (apply Z.log2_le_mono; lia).
  assert (Hhi : Z.log2 m2 <= Z.log2 (shr_m r1) + 1).
  { apply Z.le_trans with (Z.log2 (Z.succ (shr_m r1))).
    - apply Z.log2_le_mono; lia.
    - pose proof (Z.log2_succ_le (shr_m r1)); lia. }
  destruct (shr_fexp_spec m2 e1 loc_Exact) as (r2 & e2 & -> & Hr2 & Hl2 & He2); [lia | lia |].
  rewrite fexp_eq in He1, He2.
  destruct (shr_m r2) as [|m'|m'] eqn:Em; try lia.
  assert (E : (e2 <=? emax - prec) = true) by (apply Z.leb_le; unfold emax, prec; lia).
  rewrite E. exists m', e2. split; [reflexivity|]. lia.
Qed.

Lemma iter_xO m d : Zpos (Pos.iter xO m d) = Zpos m * 2 ^ Zpos d.
Proof.
  revert m. induction d using Pos.peano_ind; intros m.
  - simpl. lia.
  - rewrite Pos.iter_succ, Pos2Z.inj_xO, IHd, Pos2Z.inj_succ, Z.pow_succ_r by lia. lia.
Qed.

(** [float(k)] of a positive integer below [2 ^ 1000]. *)
Lemma float_of_int_finite (k : positive) :
  Zpos k < 2 ^ 1000 ->
  exists m e, float_of_int (Zpos k) = Ok (S754_finite false m e) /\
    Z.log2 (Zpos k) <= Z.log2 (Zpos m) + e <= Z.log2 (Zpos k) + 1 /\ e <= 971.
Proof.
  intros Hk. unfold float_of_int, binary_normalize, binary_round.
  assert (Hlog : Z.log2 (Zpos k) < 1000) by (apply Z.log2_lt_pow2; lia).
  pose proof (Z.log2_nonneg (Zpos k)) as Hnn.
  pose proof (Zdigits2_log2 (Zpos k) eq_refl) as Hdig. simpl Zdigits2 in Hdig.
  rewrite Hdig, fexp_eq. unfold shl_align.
  destruct (Z.max (Z.log2 (Z.pos k) + 1 + 0 - 53) (-1074) - 0) as [|d|d] eqn:Ed.
  - destruct (binary_round_aux_finite false (Zpos k) 0 loc_Exact) as (m & e & -> & H1 & H2); try lia.
    exists m, e. split; [reflexivity | lia].
  - destruct (binary_round_aux_finite false (Zpos k) 0 loc_Exact) as (m & e & -> & H1 & H2); try lia.
    exists m, e. split; [reflexivity | lia].
  - assert (Hsh : Z.log2 (Zpos (Pos.iter xO k d)) = Zpos d + Z.log2 (Zpos k)).
    { rewrite iter_xO. apply Z.log2_mul_pow2; lia. }
    destruct (binary_round_aux_finite false (Zpos (Pos.iter xO k d))
               (Z.max (Z.log2 (Z.pos k) + 1 + 0 - 53) (-1074)) loc_Exact)
      as (m & e & -> & H1 & H2); try lia.
    exists m, e. split; [reflexivity | lia].
Qed.

Lemma div_eucl_shift_self (p : positive) :
  Z.div_eucl (Z.shiftl (Zpos p) 53) (Zpos p) = (2 ^ 53, 0).
Proof.
  rewrite Z.shiftl_mul_pow2 by lia.
  pose proof (Z.div_eucl_eq (Z.pos p * 2 ^ 53) (Z.pos p)) as H.
  pose proof (Z.mod_pos_bound (Z.pos p * 2 ^ 53) (Z.pos p)) as Hb.
  unfold Z.modulo in Hb.
  destruct (Z.div_eucl (Z.pos p * 2 ^ 53) (Z.pos p)) as [q r].
  assert (Hp : 0 < Z.pos p) by lia.
  specialize (H ltac:(lia)). specialize (Hb Hp).
  assert (q = 2 ^ 53) by nia. subst q.
  f_equal. lia.
Qed.

Lemma SFdiv_core_self (p : positive) :
  SFdiv_core_binary prec emax (Zpos p) 0 (Zpos p) 0 = (2 ^ 53, -53, loc_Exact).
Proof.
  unfold SFdiv_core_binary.
  replace (Zdigits2 (Z.pos p) + 0 - (Zdigits2 (Z.pos p) + 0)) with 0 by lia.
  change (Z.min (fexp prec emax 0) (0 - 0)) with (-53).
  change (0 - 0 - -53) with 53.
  cbv zeta. cbv iota beta.
  rewrite div_eucl_shift_self.
  unfold new_location, new_location_even, new_location_odd.
  destruct (Z.even (Z.pos p)); reflexivity.
Qed.

(** [n / n] is [1.0]. *)
Lemma int_truediv_self (p : positive) : int_truediv (Zpos p) (Zpos p) = Ok float_one.
Proof.
  unfold int_truediv. cbn [Z.eqb exact_of_Z]. unfold SFdiv.
  rewrite SFdiv_core_self. reflexivity.
Qed.

(** The ceiling of a positive number is at least 1. *)
Lemma math_ceil_positive (m : positive) (e : Z) :
  exists n, math_ceil (S754_finite false m e) = Ok n /\ 1 <= n.
Proof.
  unfold math_ceil. eexists; split; [reflexivity|].
  destruct (0 <=? e) eqn:E.
  - apply Z.leb_le in E.
    assert (0 < 2 ^ e) by (apply Z.pow_pos_nonneg; lia). nia.
  - apply Z.leb_gt in E.
    assert (H : 0 < 2 ^ (- e)) by (apply Z.pow_pos_nonneg; lia).
    assert (- Z.pos m / 2 ^ (- e) < 0); [|lia].
    apply Z.div_lt_upper_bound; lia.
Qed.

(** The shape of a float in [(0, 1]]. *)
Lemma unit_float_inv (x : float) :
  unit_float x = true ->
  exists m e, x = S754_finite false m e /\
    -1074 < Z.log2 (Zpos m) + 1 + e /\ Z.log2 (Zpos m) + e <= 0 /\ e <= 0.
Proof.
  unfold unit_float. intros H.
  apply andb_prop in H. destruct H as [H Hle].
  apply andb_prop in H. destruct H as [Hv Hlt].
  destruct x as [s|s| |s m e]; try discriminate.
  - destruct s; discriminate.
  - destruct s; [discriminate|].
    exists m, e. split; [reflexivity|].
    unfold valid_binary, bounded, canonical_mantissa in Hv.
    apply andb_prop in Hv. destruct Hv as [Hc _].
    apply Z.eqb_eq in Hc. rewrite fexp_eq in Hc.
    pose proof (Zdigits2_log2 (Zpos m) eq_refl) as Hd. simpl Zdigits2 in Hd.
    pose proof (Z.log2_nonneg (Zpos m)).
    unfold SFleb, SFcompare, float_one in Hle.
    destruct (Z.compare_spec e (-52)); try discriminate; lia.
Qed.

(** [math.ceil(k * select)] is defined and at least 1 for [k >= 1] and
    [select] in [(0, 1]]. *)
Lemma int_mul_float_ceil (k : Z) (select : float) :
  1 <= k < 2 ^ 1000 -> unit_float select = true ->
  exists x n, int_mul_float k select = Ok x /\ math_ceil x = Ok n /\ 1 <= n.
Proof.
  intros Hk Hs. destruct k as [|k|k]; try lia.
  destruct (float_of_int_finite k) as (mk & ek & Ef & Hlk & Hek); [lia|].
  destruct (unit_float_inv select Hs) as (ms & es & -> & Hs1 & Hs2 & Hs3).
  unfold int_mul_float. rewrite Ef. cbn [rbind SFmul xorb].
  assert (Hlog : Z.log2 (Zpos k) < 1000) by (apply Z.log2_lt_pow2; lia).
  pose proof (Z.log2_nonneg (Zpos k)).
  pose proof (Z.log2_nonneg (Zpos mk)).
  pose proof (Z.log2_nonneg (Zpos ms)).
  pose proof (Z.log2_mul_below (Zpos mk) (Zpos ms) eq_refl eq_refl) as Hlo.
  pose proof (Z.log2_mul_above (Zpos mk) (Zpos ms)) as Hhi.
  rewrite Pos2Z.inj_mul.
  destruct (binary_round_aux_finite false (Zpos mk * Zpos ms) (ek + es) loc_Exact)
    as (m & e & -> & _); try lia.
  destruct (math_ceil_positive m e) as (n & Hn & Hn1).
  eexists _, n; auto.
Qed.

(** ** Dictionaries *)

Lemma key_eqb_eq (a b : key) : key_eqb a b = true <-> a = b.
Proof.
  destruct a, b; simpl; split; intros H; try discriminate; try reflexivity.
  - apply Z.eqb_eq in H; congruence.
  - injection H as ->; apply Z.eqb_refl.
  - apply String.eqb_eq in H; congruence.
  - injection H as ->; apply String.eqb_refl.
Qed.

Lemma key_eqb_refl (a : key) : key_eqb a a = true.
Proof. apply key_eqb_eq; reflexivity. Qed.

Lemma key_eqb_neq (a b : key) : key_eqb a b = false <-> a <> b.
Proof.
  rewrite <- key_eqb_eq. destruct (key_eqb a b); split; congruence.
Qed.

Lemma key_eqb_sym (a b : key) : key_eqb a b = key_eqb b a.
Proof.
  destruct (key_eqb b a) eqn:E.
  - apply key_eqb_eq in E; subst; apply key_eqb_refl.
  - apply key_eqb_neq in E. apply key_eqb_neq. congruence.
Qed.

Lemma key_eq_dec (a b : key) : {a = b} + {a <> b}.
Proof.
  destruct (key_eqb a b) eqn:E.
  - left; apply key_eqb_eq; assumption.
  - right; apply key_eqb_neq; assumption.
Defined.

Section DictFacts.
Context {V : Type}.
Implicit Types (d : dict V) (k l : key).

Lemma dict_find_In_keys k d :
  dict_find k d <> None <-> In k (keys d).
Proof.
  induction d as [|[k' v] d IH]; simpl.
  - split; [congruence | tauto].
  - destruct (key_eqb k' k) eqn:E.
    + apply key_eqb_eq in E. split; [auto | congruence].
    + apply key_eqb_neq in E. rewrite IH. split; [auto | intros [?|?]; congruence].
Qed.

Lemma dict_mem_true k d : dict_mem k d = true <-> In k (keys d).
Proof.
  rewrite <- dict_find_In_keys. unfold dict_mem.
  destruct (dict_find k d); split; congruence.
Qed.

Lemma dict_mem_false k d : dict_mem k d = false <-> ~ In k (keys d).
Proof.
  rewrite <- dict_mem_true. destruct (dict_mem k d); split; congruence.
Qed.

Lemma dict_mem_false_find k d : dict_mem k d = false -> dict_find k d = None.
Proof. unfold dict_mem. destruct (dict_find k d); congruence. Qed.

Lemma keys_dict_update k (f : V -> V) d : keys (dict_update k f d) = keys d.
Proof.
  induction d as [|[k' v] d IH]; simpl; [reflexivity|].
  destruct (key_eqb k' k); simpl; [reflexivity | rewrite IH; reflexivity].
Qed.

Lemma keys_dict_add k (v : V) d : keys (dict_add k v d) = keys d ++ [k].
Proof. unfold keys, dict_add. rewrite map_app. reflexivity. Qed.

Lemma dict_find_update k l (f : V -> V) d :
  dict_find l (dict_update k f d) =
  if key_eqb k l then option_map f (dict_find l d) else dict_find l d.
Proof.
  induction d as [|[k' v] d IH]; simpl.
  - destruct (key_eqb k l); reflexivity.
  - destruct (key_eqb k' k) eqn:E1; simpl.
    + apply key_eqb_eq in E1; subst k'.
      destruct (key_eqb k l); reflexivity.
    + destruct (key_eqb k' l) eqn:E2.
      * apply key_eqb_eq in E2; subst k'.
        rewrite key_eqb_sym, E1. reflexivity.
      * exact IH.
Qed.

Lemma dict_find_add k l (v : V) d :
  dict_find l (dict_add k v d) =
  match dict_find l d with
  | Some x => Some x
  | None => if key_eqb k l then Some v else None
  end.
Proof.
  unfold dict_add. induction d as [|[k' v'] d IH]; simpl.
  - reflexivity.
  - destruct (key_eqb k' l); [reflexivity | exact IH].
Qed.

Lemma dict_find_values k d (v : V) : dict_find k d = Some v -> In v (values d).
Proof.
  induction d as [|[k' v'] d IH]; simpl; [discriminate|].
  destruct (key_eqb k' k); [injection 1; auto | auto].
Qed.

Lemma values_dict_find d (v : V) :
  NoDup (keys d) -> In v (values d) -> exists k, dict_find k d = Some v.
Proof.
  induction d as [|[k' v'] d IH]; simpl; [tauto|].
  intros Hnd [<-|Hin].
  - exists k'. rewrite key_eqb_refl. reflexivity.
  - inversion Hnd as [|? ? Hk' Hnd']; subst.
    destruct (IH Hnd' Hin) as (k & Hk). exists k.
    destruct (key_eqb k' k) eqn:E; [|assumption].
    apply key_eqb_eq in E; subst k'. exfalso. apply Hk'.
    apply dict_find_In_keys. congruence.
Qed.
End DictFacts.

(** ** The state monad *)

(** The step of the join, with the monad unfolded. *)
Lemma join_step_eq (museums : dict museum_entry) (exhibit : value) (w : world) :
  join_step museums exhibit w =
  match exhibit_fields exhibit with
  | Raise x => (w, Raise x)
  | Ok (museum_id, exhibit_name) =>
      if negb (is_none museum_id) && negb (is_none exhibit_name) then
        match hash museum_id with
        | Raise x => (w, Raise x)
        | Ok k =>
            if dict_mem k museums then
              (w, Ok (dict_update k (append_exhibit exhibit_name) museums))
            else
              match py_int museum_id with
              | Raise x => (w, Raise x)
              | Ok i =>
                  let w1 := log (FindOneMuseum i) w in
                  let museum := museums_find_one (db w) i in
                  if negb (is_none museum) then
                    match museum_fields museum with
                    | Raise x => (w1, Raise x)
                    | Ok (loc, query) =>
                        if negb (is_none loc) && negb (is_none query) then
                          (w1, Ok (dict_add k {| name := query; locale := loc;
                                                 exhibits := [exhibit_name] |}
                                     museums))
                        else (w1, Ok museums)
                    end
                  else (w1, Ok museums)
              end
        end
      else (w, Ok museums)
  end.
Proof.
  unfold join_step, bind, lift, ret, get_by_id, bind, lift.
  destruct (exhibit_fields exhibit) as [[museum_id exhibit_name]|x]; [|reflexivity].
  destruct (negb (is_none museum_id) && negb (is_none exhibit_name)); [|reflexivity].
  destruct (hash museum_id) as [k|x]; [|reflexivity].
  destruct (dict_mem k museums); [reflexivity|].
  destruct (py_int museum_id) as [i|x]; [|reflexivity].
  cbv zeta.
  destruct (negb (is_none (museums_find_one (db w) i))); [|reflexivity].
  destruct (museum_fields (museums_find_one (db w) i)) as [[loc query]|x]; [|reflexivity].
  destruct (negb (is_none loc) && negb (is_none query)); reflexivity.
Qed.

Lemma hash_value_of_key (v : value) (k : key) : hash v = Ok k -> value_of_key k = v.
Proof. destruct v; simpl; intros H; try discriminate; injection H as <-; reflexivity. Qed.

Lemma join_step_Ok museums exhibit w w' museums' :
  join_step museums exhibit w = (w', Ok museums') ->
  step_outcome museums exhibit w w' museums'.
Proof.
  rewrite join_step_eq.
  destruct (exhibit_fields exhibit) as [[c n]|x] eqn:Ef; [|discriminate].
  destruct (negb (is_none c) && negb (is_none n)) eqn:Ev.
  - assert (Hv : valid_exhibit exhibit = Some (c, n))
      by (unfold valid_exhibit; rewrite Ef, Ev; reflexivity).
    destruct (hash c) as [k|x] eqn:Eh; [|discriminate].
    assert (Hk : exhibit_key exhibit = Some (k, n))
      by (unfold exhibit_key; rewrite Hv, Eh; reflexivity).
    pose proof (hash_value_of_key _ _ Eh) as Hc.
    destruct (dict_mem k museums) eqn:Em.
    + intros H; injection H as <- <-. eapply step_append; eassumption.
    + destruct (py_int c) as [i|x] eqn:Ei; [|discriminate]. cbv zeta.
      destruct (negb (is_none (museums_find_one (db w) i))) eqn:En.
      * destruct (museum_fields (museums_find_one (db w) i)) as [[loc nam]|x] eqn:Emf;
          [|discriminate].
        destruct (negb (is_none loc) && negb (is_none nam)) eqn:Eln;
          intros H; injection H as <- <-.
        -- eapply step_create; try eassumption; try congruence.
           unfold resolves. rewrite Hc, Ei. cbv zeta. rewrite En, Emf, Eln. reflexivity.
        -- eapply step_unresolved; try eassumption; try congruence.
           unfold resolves. rewrite Hc, Ei. cbv zeta. rewrite En, Emf, Eln. reflexivity.
      * intros H; injection H as <- <-.
        eapply step_unresolved; try eassumption; try congruence.
        unfold resolves. rewrite Hc, Ei. cbv zeta. rewrite En. reflexivity.
  - intros H; injection H as <- <-.
    assert (Hv : valid_exhibit exhibit = None)
      by (unfold valid_exhibit; rewrite Ef, Ev; reflexivity).
    apply step_skip; [|assumption].
    unfold exhibit_key. rewrite Hv. reflexivity.
Qed.

Lemma step_outcome_db museums exhibit w w' museums' :
  step_outcome museums exhibit w w' museums' -> db w' = db w.
Proof. destruct 1; reflexivity. Qed.

Lemma join_loop_cons museums exhibit rest w w' museums' :
  join_loop museums (exhibit :: rest) w = (w', Ok museums') ->
  exists w1 museums1,
    join_step museums exhibit w = (w1, Ok museums1) /\
    join_loop museums1 rest w1 = (w', Ok museums').
Proof.
  cbn [join_loop]. unfold bind.
  destruct (join_step museums exhibit w) as [w1 [museums1|x]]; [|discriminate].
  intros H. exists w1, museums1. auto.
Qed.

(** ** The join *)

Lemma NoDup_snoc {A : Type} (l : list A) (x : A) :
  NoDup l -> ~ In x l -> NoDup (l ++ [x]).
Proof.
  induction 1 as [|y l Hy Hl IH]; simpl; intros Hx.
  - repeat constructor. tauto.
  - constructor.
    + rewrite in_app_iff. simpl. intuition congruence.
    + apply IH. tauto.
Qed.

Lemma lookups_log (c : call) (w : world) :
  lookups (calls (log c w)) = (lookups (calls w) + (if is_lookup c then 1 else 0))%nat.
Proof.
  unfold lookups, log. cbn [calls]. rewrite filter_app, length_app. cbn [filter].
  destruct (is_lookup c); reflexivity.
Qed.

Lemma valid_ids_In (k : key) (es : list value) :
  In k (valid_ids es) <-> exists e n, In e es /\ exhibit_key e = Some (k, n).
Proof.
  unfold valid_ids. rewrite in_flat_map. split.
  - intros (e & He & Hk). destruct (exhibit_key e) as [[k' n]|] eqn:E; [|contradiction].
    destruct Hk as [<-|[]]. eauto.
  - intros (e & n & He & Hk). exists e. rewrite Hk. simpl; auto.
Qed.

(** The join loop, from any dictionary without duplicate keys all of
    whose keys resolve: what it adds to the keys, to the exhibits of an
    entry and to the lookups. *)
Lemma join_loop_spec (es : list value) :
  forall museums w w' museums',
  join_loop museums es w = (w', Ok museums') ->
  NoDup (keys museums) ->
  Forall (fun k => resolves (db w) k = true) (keys museums) ->
  db w' = db w /\
  NoDup (keys museums') /\
  Forall (fun k => resolves (db w) k = true) (keys museums') /\
  (forall k, In k (keys museums') <->
     In k (keys museums) \/ (In k (valid_ids es) /\ resolves (db w) k = true)) /\
  (forall k m', dict_find k museums' = Some m' ->
     exhibits m' =
       match dict_find k museums with
       | Some m => exhibits m
       | None => []
       end ++ names_of k es) /\
  (lookups (calls w') + length (keys museums) =
   lookups (calls w) + length (keys museums') +
   length (filter (unresolved (db w)) es))%nat.
Proof.
  induction es as [|e es IH]; intros museums w w' museums' Hrun Hnd Hres.
  - cbn [join_loop] in Hrun. unfold ret in Hrun. injection Hrun as <- <-.
    split; [reflexivity|]. split; [assumption|]. split; [assumption|].
    split; [|split].
    + intros k. cbn [valid_ids flat_map In]. tauto.
    + intros k m' ->. cbn [names_of flat_map]. rewrite app_nil_r. reflexivity.
    + cbn [filter length]. lia.
  - apply join_loop_cons in Hrun. destruct Hrun as (w1 & museums1 & Hstep & Hrest).
    apply join_step_Ok in Hstep.
    pose proof (step_outcome_db _ _ _ _ _ Hstep) as Hdb.
    assert (Hfind_res : forall museums'' k (m' : museum_entry),
      Forall (fun k => resolves (db w) k = true) (keys museums'') ->
      dict_find k museums'' = Some m' -> resolves (db w) k = true).
    { intros museums'' k m' HF Hf. rewrite Forall_forall in HF. apply HF.
      apply dict_find_In_keys. congruence. }
    destruct Hstep as [Hk Hv | k0 n Hk Hm | k0 n i loc nam Hk Hm Hi Hr Hmf
                       | k0 n i Hk Hm Hi Hr].
    + (* skipped *)
      destruct (IH _ _ _ _ Hrest Hnd Hres) as (H1 & H2 & H3 & H4 & H5 & H6).
      assert (Hu : unresolved (db w) e = false)
        by (unfold unresolved; rewrite Hk; reflexivity).
      unfold valid_ids, names_of in *. cbn [flat_map filter].
      rewrite Hk, Hu. cbn [app]. auto 10.
    + (* appended to an entry *)
      assert (Hin0 : In k0 (keys museums)) by (apply dict_mem_true; assumption).
      assert (Hr0 : resolves (db w) k0 = true)
        by (rewrite Forall_forall in Hres; auto).
      rewrite <- (keys_dict_update k0 (append_exhibit n) museums) in Hnd, Hres.
      destruct (IH _ _ _ _ Hrest Hnd Hres) as (H1 & H2 & H3 & H4 & H5 & H6).
      rewrite keys_dict_update in *.
      split; [assumption|]. split; [assumption|]. split; [assumption|].
      split; [|split].
      * intros k. rewrite H4. unfold valid_ids. cbn [flat_map]. rewrite Hk.
        cbn [app In]. split; [tauto|].
        intros [H|[[<-|H] Hrk]]; tauto.
      * intros k m' Hf. rewrite (H5 k m' Hf), dict_find_update.
        unfold names_of. cbn [flat_map]. rewrite Hk.
        destruct (key_eqb k0 k) eqn:E.
        -- apply key_eqb_eq in E; subst k0.
           apply dict_find_In_keys in Hin0.
           destruct (dict_find k museums) as [m|]; [|congruence].
           cbn [option_map append_exhibit exhibits]. rewrite <- app_assoc. reflexivity.
        -- reflexivity.
      * assert (Hu : unresolved (db w) e = false)
          by (unfold unresolved; rewrite Hk, Hr0; reflexivity).
        cbn [filter]. rewrite Hu. exact H6.
    + (* a new entry *)
      assert (Hnin : ~ In k0 (keys museums)) by (apply dict_mem_false; assumption).
      set (entry := {| name := nam; locale := loc; exhibits := [n] |}) in *.
      assert (Hnd1 : NoDup (keys (dict_add k0 entry museums)))
        by (rewrite keys_dict_add; apply NoDup_snoc; assumption).
      assert (Hres1 : Forall (fun k => resolves (db (log (FindOneMuseum i) w)) k = true)
                        (keys (dict_add k0 entry museums))).
      { rewrite keys_dict_add. apply Forall_app. split; [exact Hres|].
        constructor; [exact Hr | constructor]. }
      destruct (IH _ _ _ _ Hrest Hnd1 Hres1) as (H1 & H2 & H3 & H4 & H5 & H6).
      cbn [db log] in *.
      split; [assumption|]. split; [assumption|]. split; [assumption|].
      split; [|split].
      * intros k. rewrite H4, keys_dict_add, in_app_iff. unfold valid_ids.
        cbn [flat_map]. rewrite Hk. cbn [app In]. split.
        -- intros [[H|[<-|[]]]|[H Hrk]]; tauto.
        -- intros [H|[[<-|H] Hrk]]; tauto.
      * intros k m' Hf. rewrite (H5 k m' Hf), dict_find_add.
        unfold names_of. cbn [flat_map]. rewrite Hk.
        destruct (dict_find k museums) as [m|] eqn:Efk.
        -- destruct (key_eqb k0 k) eqn:E; [|reflexivity].
           apply key_eqb_eq in E; subst k0. exfalso. apply Hnin.
           apply dict_find_In_keys. congruence.
        -- destruct (key_eqb k0 k); reflexivity.
      * rewrite lookups_log in H6. rewrite keys_dict_add, length_app in H6.
        cbn [is_lookup length] in H6.
        assert (Hu : unresolved (db w) e = false)
          by (unfold unresolved; rewrite Hk, Hr; reflexivity).
        cbn [filter]. rewrite Hu. lia.
    + (* no usable museum *)
      destruct (IH _ _ _ _ Hrest Hnd Hres) as (H1 & H2 & H3 & H4 & H5 & H6).
      cbn [db log] in *.
      split; [assumption|]. split; [assumption|]. split; [assumption|].
      split; [|split].
      * intros k. rewrite H4. unfold valid_ids. cbn [flat_map]. rewrite Hk.
        cbn [app In]. split; [tauto|].
        intros [H|[[<-|H] Hrk]]; [tauto | congruence | tauto].
      * intros k m' Hf. rewrite (H5 k m' Hf).
        unfold names_of. cbn [flat_map]. rewrite Hk.
        destruct (key_eqb k0 k) eqn:E; [|reflexivity].
        apply key_eqb_eq in E; subst k0.
        pose proof (Hfind_res _ _ _ H3 Hf). congruence.
      * rewrite lookups_log in H6. cbn [is_lookup] in H6.
        assert (Hu : unresolved (db w) e = true)
          by (unfold unresolved; rewrite Hk, Hr; reflexivity).
        cbn [filter]. rewrite Hu. cbn [length]. lia.
Qed.

Lemma step_outcome_keys_resolve museums e w w' museums' :
  step_outcome museums e w w' museums' ->
  Forall (fun k => resolves (db w) k = true) (keys museums) ->
  Forall (fun k => resolves (db w) k = true) (keys museums').
Proof.
  intros [Hk Hv | k0 n Hk Hm | k0 n i loc nam Hk Hm Hi Hr Hmf | k0 n i Hk Hm Hi Hr] H.
  - assumption.
  - rewrite keys_dict_update. assumption.
  - rewrite keys_dict_add. apply Forall_app. split; [assumption|].
    constructor; [assumption | constructor].
  - assumption.
Qed.

(** Every exhibit of a join that goes through is handled by a step that
    goes through, from a dictionary all of whose keys resolve. *)
Lemma join_loop_steps (es : list value) :
  forall museums w w' museums' e,
  join_loop museums es w = (w', Ok museums') ->
  Forall (fun k => resolves (db w) k = true) (keys museums) ->
  In e es ->
  exists museums0 w0 w1 museums1,
    step_outcome museums0 e w0 w1 museums1 /\
    db w0 = db w /\
    Forall (fun k => resolves (db w) k = true) (keys museums0).
Proof.
  induction es as [|e' es IH]; intros museums w w' museums' e Hrun Hres Hin.
  - destruct Hin.
  - apply join_loop_cons in Hrun. destruct Hrun as (w1 & museums1 & Hstep & Hrest).
    apply join_step_Ok in Hstep.
    destruct Hin as [<-|Hin].
    + exists museums, w, w1, museums1. auto.
    + pose proof (step_outcome_db _ _ _ _ _ Hstep) as Hdb.
      pose proof (step_outcome_keys_resolve _ _ _ _ _ Hstep Hres) as Hres1.
      rewrite <- Hdb in Hres1.
      destruct (IH _ _ _ _ e Hrest Hres1 Hin) as (m0 & w0 & w2 & m2 & H1 & H2 & H3).
      exists m0, w0, w2, m2. rewrite Hdb in *. auto.
Qed.

Lemma join_step_total museums e w :
  well_formed (db w) e = true ->
  exists w' museums', join_step museums e w = (w', Ok museums') /\ db w' = db w.
Proof.
  unfold well_formed. rewrite join_step_eq.
  destruct (exhibit_fields e) as [[c n]|x]; [|discriminate].
  destruct (negb (is_none c) && negb (is_none n)); [|eauto].
  destruct (hash c) as [k|x]; [|discriminate].
  destruct (py_int c) as [i|x]; [|destruct (dict_mem k museums); [eauto | discriminate]].
  destruct (dict_mem k museums); [eauto|].
  cbv zeta. intros H.
  destruct (is_none (museums_find_one (db w) i)); cbn [negb]; [eauto|].
  cbn [orb] in H.
  destruct (museum_fields (museums_find_one (db w) i)) as [[loc nam]|x]; [|discriminate].
  destruct (negb (is_none loc) && negb (is_none nam)); eauto.
Qed.

Lemma join_loop_total (es : list value) :
  forall museums w,
  Forall (fun e => well_formed (db w) e = true) es ->
  exists w' museums', join_loop museums es w = (w', Ok museums').
Proof.
  induction es as [|e es IH]; intros museums w Hwf.
  - eexists _, _; reflexivity.
  - inversion Hwf as [|? ? He Hes]; subst.
    destruct (join_step_total museums e w He) as (w1 & museums1 & Hstep & Hdb).
    rewrite <- Hdb in Hes.
    destruct (IH museums1 w1 Hes) as (w' & museums' & Hrest).
    exists w', museums'. cbn [join_loop]. unfold bind. rewrite Hstep. exact Hrest.
Qed.

Lemma get_museums_eq (query : string) (w : world) :
  get_museums_with_locales_and_exhibits query w =
  join_loop [] (exhibits_find (db w) query) (log (FindExhibits query) w).
Proof. reflexivity. Qed.

Lemma names_of_In (k : key) (n : value) (e : value) (es : list value) :
  In e es -> exhibit_key e = Some (k, n) -> In n (names_of k es).
Proof.
  intros He Hk. unfold names_of. apply in_flat_map. exists e. split; [assumption|].
  rewrite Hk, key_eqb_refl. simpl; auto.
Qed.

(** The join, started from the empty dictionary. *)
Lemma join_spec (w w' : world) (query : string) (museums : dict museum_entry) :
  get_museums_with_locales_and_exhibits query w = (w', Ok museums) ->
  let es := exhibits_find (db w) query in
  db w' = db w /\
  NoDup (keys museums) /\
  (forall k, In k (keys museums) <->
     In k (valid_ids es) /\ resolves (db w) k = true) /\
  (forall k m, dict_find k museums = Some m -> exhibits m = names_of k es) /\
  (lookups (calls w') =
   lookups (calls w) + length (keys museums) +
   length (filter (unresolved (db w)) es))%nat.
Proof.
  rewrite get_museums_eq. intros Hrun es.
  apply join_loop_spec in Hrun; [|constructor|constructor].
  cbn [db log keys map] in Hrun.
  destruct Hrun as (H1 & H2 & H3 & H4 & H5 & H6).
  split; [assumption|]. split; [assumption|]. split; [|split].
  - intros k. rewrite H4. cbn [In]. tauto.
  - intros k m Hf. rewrite (H5 k m Hf). reflexivity.
  - rewrite lookups_log in H6. cbn [is_lookup length] in H6. fold es in H6. lia.
Qed.

(** C7: the dictionary built by the join has exactly one entry per
    museum identifier that some valid exhibit of the search result carries
    and that resolves to a museum with a name and a locale; the exhibits
    of an entry are never empty and are the names of the valid exhibits of
    that identifier, in the order of the search result.  On a search
    result all of whose documents are well formed the join does return a
    dictionary. *)
Theorem join_one_entry_per_museum (w : world) (query : string) :
  let es := exhibits_find (db w) query in
  (Forall (fun e => well_formed (db w) e = true) es ->
   exists w' museums,
     get_museums_with_locales_and_exhibits query w = (w', Ok museums)) /\
  (forall w' museums,
     get_museums_with_locales_and_exhibits query w = (w', Ok museums) ->
     NoDup (keys museums) /\
     (forall k, In k (keys museums) <->
        exists e n, In e es /\ exhibit_key e = Some (k, n) /\
                    resolves (db w) k = true) /\
     (forall k m, dict_find k museums = Some m ->
        exhibits m <> [] /\ exhibits m = names_of k es)).
Proof.
  intros es. split.
  - intros Hwf. rewrite get_museums_eq. apply join_loop_total. exact Hwf.
  - intros w' museums Hrun.
    destruct (join_spec _ _ _ _ Hrun) as (_ & Hnd & Hkeys & Hex & _).
    fold es in Hkeys, Hex.
    assert (Hiff : forall k, In k (keys museums) <->
        exists e n, In e es /\ exhibit_key e = Some (k, n) /\
                    resolves (db w) k = true).
    { intros k. rewrite Hkeys, valid_ids_In. split.
      - intros ((e & n & He & Hk) & Hr). eauto.
      - intros (e & n & He & Hk & Hr). eauto. }
    split; [assumption|]. split; [assumption|].
    intros k m Hf. split; [|apply Hex; assumption].
    rewrite (Hex k m Hf).
    assert (Hin : In k (keys museums)) by (apply dict_find_In_keys; congruence).
    apply Hiff in Hin. destruct Hin as (e & n & He & Hk & _).
    intros Hnil. pose proof (names_of_In k n e es He Hk) as Hn.
    rewrite Hnil in Hn. destruct Hn.
Qed.

Lemma join_one_entry_per_museum_witness :
  let museums :=
    [(KInt 1, {| name := VStr "M1"; locale := VStr "CityA";
                 exhibits := [VStr "Vase"; VStr "Urn"] |});
     (KInt 2, {| name := VStr "M2"; locale := VStr "CityA";
                 exhibits := [VStr "Coin"] |})] in
  NoDup (keys museums) /\
  (forall k, In k (keys museums) <->
     exists e n, In e (exhibits_find store_a "vase") /\
                 exhibit_key e = Some (k, n) /\ resolves store_a k = true) /\
  (forall k m, dict_find k museums = Some m ->
     exhibits m <> [] /\ exhibits m = names_of k (exhibits_find store_a "vase")).
Proof.
  exact (proj2 (join_one_entry_per_museum (fresh store_a) "vase") _ _ eq_refl).
Defined.

(** ** Counting the lookups *)

Lemma first_seen_In (k : key) (l : list key) : In k (first_seen l) <-> In k l.
Proof.
  induction l as [|k0 l IH]; [reflexivity|].
  cbn [first_seen In]. rewrite filter_In, IH.
  destruct (key_eq_dec k0 k) as [->|Hne]; [tauto|].
  apply key_eqb_neq in Hne. rewrite Hne. cbn [negb]. tauto.
Qed.

Lemma first_seen_NoDup (l : list key) : NoDup (first_seen l).
Proof.
  induction l as [|k0 l IH]; cbn [first_seen]; constructor.
  - rewrite filter_In, key_eqb_refl. cbn [negb]. intros [_ H]; discriminate.
  - apply NoDup_filter. assumption.
Qed.

(** C2, as the code has it: the join makes one lookup for each entry it
    creates and one for every valid exhibit whose identifier does not
    resolve to a museum with a name and a locale; the entries are at most
    as many as the distinct identifiers of the valid exhibits, so that the
    lookups are at most that many whenever every valid exhibit resolves. *)
Theorem lookups_of_join (w w' : world) (query : string)
    (museums : dict museum_entry) :
  get_museums_with_locales_and_exhibits query w = (w', Ok museums) ->
  let es := exhibits_find (db w) query in
  (lookups (calls w') =
   lookups (calls w) + length (keys museums) +
   length (filter (unresolved (db w)) es))%nat /\
  (length (keys museums) <= distinct_ids es)%nat /\
  (Forall (fun e => unresolved (db w) e = false) es ->
   (lookups (calls w') <= lookups (calls w) + distinct_ids es)%nat).
Proof.
  intros Hrun es.
  destruct (join_spec _ _ _ _ Hrun) as (_ & Hnd & Hkeys & _ & Hcount).
  fold es in Hkeys, Hcount.
  assert (Hle : (length (keys museums) <= distinct_ids es)%nat).
  { unfold distinct_ids. apply NoDup_incl_length; [assumption|].
    intros k Hk. apply first_seen_In. apply Hkeys in Hk. tauto. }
  split; [assumption|]. split; [assumption|].
  intros Hall.
  assert (Hnone : filter (unresolved (db w)) es = []).
  { clear -Hall. induction Hall as [|e l He Hl IH]; [reflexivity|].
    cbn [filter]. rewrite He. assumption. }
  rewrite Hnone in Hcount. cbn [length] in Hcount. lia.
Qed.

Lemma lookups_of_join_witness :
  (lookups [FindExhibits "vase"; FindOneMuseum 1; FindOneMuseum 2] =
   lookups [] + 2 + 0)%nat /\
  (2 <= distinct_ids (exhibits_find store_a "vase"))%nat /\
  (Forall (fun e => unresolved store_a e = false) (exhibits_find store_a "vase") ->
   (lookups [FindExhibits "vase"; FindOneMuseum 1; FindOneMuseum 2] <=
    lookups [] + distinct_ids (exhibits_find store_a "vase"))%nat).
Proof.
  exact (lookups_of_join (fresh store_a) _ "vase" _ eq_refl).
Defined.

(** C2 fails as stated: two exhibits of one museum that is not in the
    collection cost two lookups for one identifier. *)
Lemma lookups_exceed_distinct_ids :
  let run := get_museums_with_locales_and_exhibits "vase" (fresh store_missing) in
  let es := exhibits_find store_missing "vase" in
  snd run = Ok [] /\
  lookups (calls (fst run)) = 2%nat /\
  distinct_ids es = 1%nat /\
  ~ (lookups (calls (fst run)) <= distinct_ids es)%nat.
Proof.
  cbv zeta. repeat split. vm_compute. lia.
Qed.

(** ** Skipped exhibits *)

(** C3, as the code has it: an exhibit whose museum code or name is
    there and is [None] is skipped, without an error, a lookup or a change
    to the dictionary; and a museum that is found but whose name or locale
    name is [None] leaves the dictionary as a museum that is not found
    does. *)
Theorem null_fields_are_skipped :
  (forall museums exhibit w museum_id exhibit_name,
     exhibit_fields exhibit = Ok (museum_id, exhibit_name) ->
     museum_id = VNone \/ exhibit_name = VNone ->
     join_step museums exhibit w = (w, Ok museums)) /\
  (forall museums exhibit w k n i,
     exhibit_key exhibit = Some (k, n) ->
     dict_mem k museums = false ->
     py_int (value_of_key k) = Ok i ->
     let museum := museums_find_one (db w) i in
     (museum = VNone \/
      exists loc nam, museum_fields museum = Ok (loc, nam) /\
                      (loc = VNone \/ nam = VNone)) ->
     join_step museums exhibit w = (log (FindOneMuseum i) w, Ok museums)).
Proof.
  split.
  - intros museums exhibit w c n Hf Hnull. rewrite join_step_eq, Hf.
    destruct Hnull as [-> | ->]; cbn [is_none negb andb]; [reflexivity|].
    rewrite andb_false_r. reflexivity.
  - intros museums exhibit w k n i Hk Hm Hi museum Hmus.
    rewrite join_step_eq.
    unfold exhibit_key, valid_exhibit in Hk.
    destruct (exhibit_fields exhibit) as [[c n']|x]; [|discriminate].
    destruct (negb (is_none c) && negb (is_none n')); [|discriminate].
    destruct (hash c) as [k'|x] eqn:Eh; [|discriminate].
    injection Hk as -> ->.
    rewrite <- (hash_value_of_key _ _ Eh), Hi, Hm. cbv zeta. fold museum.
    destruct Hmus as [-> | (loc & nam & -> & Hnull)]; [reflexivity|].
    assert (Hb : negb (is_none loc) && negb (is_none nam) = false).
    { destruct Hnull as [-> | ->]; [reflexivity | apply andb_false_r]. }
    rewrite Hb. destruct (negb (is_none museum)); reflexivity.
Qed.

Lemma null_fields_are_skipped_witness :
  join_step [] (exhibit_doc VNone (VStr "Vase")) (fresh store_a) =
    (fresh store_a, Ok []) /\
  join_step [] (exhibit_doc (VInt 3) (VStr "Vase")) (fresh store_a) =
    (log (FindOneMuseum 3) (fresh store_a), Ok []).
Proof.
  split.
  - apply (proj1 null_fields_are_skipped [] _ (fresh store_a) VNone (VStr "Vase")).
    + reflexivity.
    + left; reflexivity.
  - apply (proj2 null_fields_are_skipped [] _ (fresh store_a) (KInt 3) (VStr "Vase") 3).
    + reflexivity.
    + reflexivity.
    + reflexivity.
    + left; reflexivity.
Defined.

(** C3 fails as stated: an exhibit whose museum code is absent is not
    skipped, reading the field raises [KeyError]. *)
Lemma absent_field_raises :
  (Ok exhibit_without_code).["data"].["museum"].["code"]%py = Raise KeyError /\
  join_step [] exhibit_without_code (fresh store_a) =
    (fresh store_a, Raise KeyError) /\
  join_step [] exhibit_without_code (fresh store_a) <> (fresh store_a, Ok []).
Proof. split; [reflexivity|]. split; [reflexivity | discriminate]. Qed.

(** ** Identifiers that are no integers *)

Lemma get_by_id_eq (id : value) (w : world) :
  get_by_id id w =
  match py_int id with
  | Ok i => (log (FindOneMuseum i) w, Ok (museums_find_one (db w) i))
  | Raise x => (w, Raise x)
  end.
Proof. unfold get_by_id, bind, lift. destruct (py_int id); reflexivity. Qed.

(** C9, as the code has it: [get_by_id] converts the identifier with
    [int] before it queries the collection, and a search result with an
    exhibit that has a name and a museum code, neither of them [None],
    whose code cannot be converted makes the join raise. *)
Theorem non_integer_code_raises :
  (forall id w,
     get_by_id id w =
     match py_int id with
     | Ok i => (log (FindOneMuseum i) w, Ok (museums_find_one (db w) i))
     | Raise x => (w, Raise x)
     end) /\
  (forall w query exhibit museum_id exhibit_name x,
     In exhibit (exhibits_find (db w) query) ->
     exhibit_fields exhibit = Ok (museum_id, exhibit_name) ->
     museum_id <> VNone -> exhibit_name <> VNone ->
     py_int museum_id = Raise x ->
     exists w' x',
       get_museums_with_locales_and_exhibits query w = (w', Raise x')).
Proof.
  split; [exact get_by_id_eq|].
  intros w query e c n x Hin Hf Hc Hn Hint.
  destruct (get_museums_with_locales_and_exhibits query w) as [w' [museums|x']] eqn:Hrun;
    [exfalso | eauto].
  rewrite get_museums_eq in Hrun.
  destruct (join_loop_steps _ _ _ _ _ e Hrun (Forall_nil _) Hin)
    as (m0 & w0 & w1 & m1 & Hstep & Hdb & Hres).
  cbn [db log] in Hdb, Hres.
  assert (Hv : valid_exhibit e = Some (c, n)).
  { unfold valid_exhibit. rewrite Hf.
    destruct c; [congruence| | | |]; destruct n; try congruence; reflexivity. }
  assert (Hkey : forall k n', exhibit_key e = Some (k, n') -> value_of_key k = c).
  { intros k n'. unfold exhibit_key. rewrite Hv.
    destruct (hash c) as [k'|] eqn:Eh; [|discriminate].
    intros H; injection H as <- <-. apply hash_value_of_key; assumption. }
  destruct Hstep as [Hk Hv' | k0 n' Hk Hm | k0 n' i loc nam Hk Hm Hi Hr Hmf
                     | k0 n' i Hk Hm Hi Hr].
  - congruence.
  - apply dict_mem_true in Hm. rewrite Forall_forall in Hres.
    apply Hres in Hm. unfold resolves in Hm.
    rewrite (Hkey _ _ Hk), Hint in Hm. discriminate.
  - rewrite (Hkey _ _ Hk) in Hi. congruence.
  - rewrite (Hkey _ _ Hk) in Hi. congruence.
Qed.

Lemma non_integer_code_raises_witness :
  exists w' x',
    get_museums_with_locales_and_exhibits "vase" (fresh store_bad_code) =
    (w', Raise x').
Proof.
  apply (proj2 non_integer_code_raises (fresh store_bad_code) "vase"%string
           (exhibit_doc (VStr "abc") (VStr "Vase")) (VStr "abc") (VStr "Vase")
           ValueError).
  - left; reflexivity.
  - reflexivity.
  - discriminate.
  - discriminate.
  - reflexivity.
Defined.

(** C9 fails as stated: an exhibit whose museum code cannot be converted
    but whose name is [None] is skipped, the join returns. *)
Lemma non_integer_code_without_name_is_skipped :
  exhibit_fields (exhibit_doc (VStr "abc") VNone) = Ok (VStr "abc", VNone) /\
  py_int (VStr "abc") = Raise ValueError /\
  get_museums_with_locales_and_exhibits "vase" (fresh store_unnamed) =
    (log (FindExhibits "vase") (fresh store_unnamed), Ok []) /\
  ~ exists w' x,
      get_museums_with_locales_and_exhibits "vase" (fresh store_unnamed) =
      (w', Raise x).
Proof.
  split; [reflexivity|]. split; [reflexivity|]. split; [reflexivity|].
  intros (w' & x & H). discriminate.
Qed.

(** ** The empty search result *)

Lemma get_sorted_locales_eq (query : string) (limit : Z) (w : world) :
  get_sorted_locales query limit w =
  match get_museums_with_locales_and_exhibits query w with
  | (w', Ok joined) =>
      (w', (museums <- filter_relevant_museums joined border_default select_default ;;
            group_by_locale museums limit)%py)
  | (w', Raise x) => (w', Raise x)
  end.
Proof.
  unfold get_sorted_locales, bind, lift.
  destruct (get_museums_with_locales_and_exhibits query w) as [w' [joined|x]];
    [|reflexivity].
  destruct (filter_relevant_museums joined border_default select_default);
    reflexivity.
Qed.

(** C1, on the code: a search that yields no aggregate makes the
    relevance filter, and with it the pipeline, raise [IndexError]. *)
Theorem empty_result_raises_IndexError (w w' : world) (query : string)
    (limit : Z) :
  get_museums_with_locales_and_exhibits query w = (w', Ok []) ->
  filter_relevant_museums [] border_default select_default = Raise IndexError /\
  get_sorted_locales query limit w = (w', Raise IndexError).
Proof.
  intros Hrun. split; [reflexivity|].
  rewrite get_sorted_locales_eq, Hrun. reflexivity.
Qed.

Lemma empty_result_raises_IndexError_witness :
  filter_relevant_museums [] border_default select_default = Raise IndexError /\
  get_sorted_locales "vase" 7 (fresh store_empty) =
    (log (FindExhibits "vase") (fresh store_empty), Raise IndexError).
Proof.
  exact (empty_result_raises_IndexError (fresh store_empty) _ "vase" 7 eq_refl).
Defined.

(** ** Running the pipeline twice *)

Lemma reads_store_ret {A : Type} (a : A) : reads_store (ret a).
Proof. intros s. exists [], (Ok a). intros cs. unfold ret. rewrite app_nil_r. reflexivity. Qed.

Lemma reads_store_lift {A : Type} (r : result A) : reads_store (lift r).
Proof. intros s. exists [], r. intros cs. unfold lift. rewrite app_nil_r. reflexivity. Qed.

Lemma reads_store_bind {A B : Type} (m : M A) (k : A -> M B) :
  reads_store m -> (forall a, reads_store (k a)) -> reads_store (bind m k).
Proof.
  intros Hm Hk s. destruct (Hm s) as (tr1 & r1 & H1).
  destruct r1 as [a|x].
  - destruct (Hk a s) as (tr2 & r2 & H2).
    exists (tr1 ++ tr2), r2. intros cs. unfold bind.
    rewrite H1, H2, app_assoc. reflexivity.
  - exists tr1, (Raise x). intros cs. unfold bind. rewrite H1. reflexivity.
Qed.

Lemma reads_store_get_by_name (query : string) : reads_store (get_by_name query).
Proof.
  intros s. exists [FindExhibits query], (Ok (exhibits_find s query)).
  intros cs. reflexivity.
Qed.

Lemma reads_store_get_by_id (id : value) : reads_store (get_by_id id).
Proof.
  unfold get_by_id. apply reads_store_bind; [apply reads_store_lift|].
  intros i s. exists [FindOneMuseum i], (Ok (museums_find_one s i)).
  intros cs. reflexivity.
Qed.

Lemma reads_store_join_step museums exhibit : reads_store (join_step museums exhibit).
Proof.
  unfold join_step.
  apply reads_store_bind; [apply reads_store_lift|]. intros [museum_id exhibit_name].
  destruct (negb (is_none museum_id) && negb (is_none exhibit_name));
    [|apply reads_store_ret].
  apply reads_store_bind; [apply reads_store_lift|]. intros k.
  destruct (dict_mem k museums); [apply reads_store_ret|].
  apply reads_store_bind; [apply reads_store_get_by_id|]. intros museum.
  destruct (negb (is_none museum)); [|apply reads_store_ret].
  apply reads_store_bind; [apply reads_store_lift|]. intros [loc query].
  destruct (negb (is_none loc) && negb (is_none query)); apply reads_store_ret.
Qed.

Lemma reads_store_join_loop exhibits :
  forall museums, reads_store (join_loop museums exhibits).
Proof.
  induction exhibits as [|e es IH]; intros museums; cbn [join_loop].
  - apply reads_store_ret.
  - apply reads_store_bind; [apply reads_store_join_step | exact IH].
Qed.

Lemma reads_store_get_sorted_locales (query : string) (limit : Z) :
  reads_store (get_sorted_locales query limit).
Proof.
  unfold get_sorted_locales, get_museums_with_locales_and_exhibits.
  apply reads_store_bind.
  - apply reads_store_bind; [apply reads_store_get_by_name|].
    intros es. apply reads_store_join_loop.
  - intros joined. apply reads_store_bind; [apply reads_store_lift|].
    intros museums. apply reads_store_lift.
Qed.

(** C8: a run of the pipeline leaves the store as it is, and a second
    run on the same query and limit returns what the first returned, be it
    the location groups or the error. *)
Theorem pipeline_is_repeatable (w : world) (query : string) (limit : Z) :
  let first := get_sorted_locales query limit w in
  let second := get_sorted_locales query limit (fst first) in
  snd second = snd first /\
  db (fst first) = db w /\ db (fst second) = db w.
Proof.
  destruct w as [s cs].
  destruct (reads_store_get_sorted_locales query limit s) as (tr & r & H).
  cbv zeta. rewrite (H cs). cbn [fst snd]. rewrite (H (cs ++ tr)).
  cbn [fst snd db]. auto.
Qed.

(** ** The ratio of two counts *)

(** [c / mx] is a positive finite number for [0 < c <= mx]. *)
Lemma int_truediv_finite (c mx : positive) :
  Zpos c <= Zpos mx -> Zpos mx < 2 ^ 1000 ->
  exists m e, int_truediv (Zpos c) (Zpos mx) = Ok (S754_finite false m e).
Proof.
  intros Hle Hmx. unfold int_truediv. cbn [Z.eqb exact_of_Z].
  unfold SFdiv, SFdiv_core_binary.
  rewrite !Zdigits2_log2 by lia.
  assert (Hlc : 0 <= Z.log2 (Zpos c)) by apply Z.log2_nonneg.
  assert (Hlm : Z.log2 (Zpos mx) < 1000) by (apply Z.log2_lt_pow2; lia).
  assert (Hlcm : Z.log2 (Zpos c) <= Z.log2 (Zpos mx)) by (apply Z.log2_le_mono; lia).
  set (x := Z.log2 (Zpos c) + 1 + 0 - (Z.log2 (Zpos mx) + 1 + 0)).
  rewrite fexp_eq.
  assert (He : Z.min (Z.max (x - 53) (-1074)) (0 - 0) = x - 53) by lia.
  rewrite He.
  destruct (0 - 0 - (x - 53)) as [|s|s] eqn:Es; try lia.
  rewrite Z.shiftl_mul_pow2 by lia.
  pose proof (Z.div_eucl_eq (Zpos c * 2 ^ Zpos s) (Zpos mx) ltac:(lia)) as Hdiv.
  pose proof (Z.mod_pos_bound (Zpos c * 2 ^ Zpos s) (Zpos mx) ltac:(lia)) as Hmod.
  unfold Z.modulo in Hmod.
  destruct (Z.div_eucl (Zpos c * 2 ^ Zpos s) (Zpos mx)) as [q r].
  assert (Hs : Zpos s = 53 + Z.log2 (Zpos mx) - Z.log2 (Zpos c)) by lia.
  assert (Hc1 : 2 ^ Z.log2 (Zpos c) <= Zpos c) by (apply Z.log2_spec; lia).
  assert (Hm1 : Zpos mx < 2 ^ Z.succ (Z.log2 (Zpos mx))) by (apply Z.log2_spec; lia).
  assert (Hpow : 2 ^ Z.log2 (Zpos c) * 2 ^ Zpos s = 2 ^ 52 * 2 ^ Z.succ (Z.log2 (Zpos mx))).
  { rewrite <- !Z.pow_add_r by lia. f_equal. lia. }
  assert (Hps : 0 < 2 ^ Zpos s) by (apply Z.pow_pos_nonneg; lia).
  assert (Hbig : 2 ^ 52 * Zpos mx < Zpos c * 2 ^ Zpos s) by nia.
  assert (Hq : 2 ^ 52 <= q) by nia.
  assert (Hqu : q <= Zpos c * 2 ^ Zpos s) by nia.
  assert (Hlq : 52 <= Z.log2 q).
  { change 52 with (Z.log2 (2 ^ 52)). apply Z.log2_le_mono. assumption. }
  assert (Hlqu : Z.log2 q <= Z.log2 (Zpos c) + Zpos s).
  { apply Z.le_trans with (Z.log2 (Zpos c * 2 ^ Zpos s)).
    - apply Z.log2_le_mono. assumption.
    - rewrite Z.log2_mul_pow2 by lia. lia. }
  cbn [xorb].
  destruct (binary_round_aux_finite false q (x - 53) (new_location (Zpos mx) r))
    as (m & e & -> & _); try lia.
  eauto.
Qed.

Lemma ratio_test_count border mx (a b : museum_entry) :
  exhibit_count a = exhibit_count b ->
  ratio_test border mx a = ratio_test border mx b.
Proof. unfold ratio_test. intros ->. reflexivity. Qed.

Lemma ratio_ok_count border mx (a b : museum_entry) :
  exhibit_count a = exhibit_count b -> ratio_ok border mx a = ratio_ok border mx b.
Proof. unfold ratio_ok. intros H. rewrite (ratio_test_count _ _ _ _ H). reflexivity. Qed.

Lemma ratio_test_top border (top : museum_entry) :
  exhibits top <> [] ->
  ratio_test border (exhibit_count top) top = Ok (float_ge float_one border).
Proof.
  intros H. unfold ratio_test.
  assert (Hp : 0 < Z.of_nat (exhibit_count top)).
  { unfold exhibit_count. destruct (exhibits top); [congruence | cbn [length]; lia]. }
  destruct (Z.of_nat (exhibit_count top)) as [|p|p]; try lia.
  rewrite int_truediv_self. reflexivity.
Qed.

(** ** The relevance filter *)

Lemma filter_r_Ok {A : Type} (p : A -> result bool) (l r : list A) :
  filter_r p l = Ok r ->
  r = filter (fun x => match p x with Ok b => b | Raise _ => false end) l.
Proof.
  revert r. induction l as [|x l IH]; intros r; cbn [filter_r filter].
  - intros H; injection H as <-; reflexivity.
  - intros H. ok_inv H. ok_inv H. injection H as <-.
    rewrite Ha. rewrite (IH _ Ha0). reflexivity.
Qed.

Lemma filter_r_total {A : Type} (p : A -> result bool) (l : list A) :
  Forall (fun x => exists b, p x = Ok b) l -> exists r, filter_r p l = Ok r.
Proof.
  induction 1 as [|x l (b & Hb) Hl (r & Hr)]; cbn [filter_r].
  - eauto.
  - rewrite Hb, Hr. cbn [rbind]. eauto.
Qed.

(** What the filter returns, when it returns. *)
Lemma filter_relevant_museums_Ok museums border select out :
  filter_relevant_museums museums border select = Ok out ->
  exists top rest n,
    reversed_sorted exhibit_count (values museums) = top :: rest /\
    (x <- int_mul_float
            (Z.of_nat (length (filter (ratio_ok border (exhibit_count top))
                                 (top :: rest)))) select ;;
     math_ceil x)%py = Ok n /\
    out = slice_to n (filter (ratio_ok border (exhibit_count top)) (top :: rest)).
Proof.
  unfold filter_relevant_museums.
  destruct (reversed_sorted exhibit_count (values museums)) as [|top rest];
    [discriminate|].
  intros H. ok_inv H. apply filter_r_Ok in Ha. fold (ratio_ok border (exhibit_count top)) in Ha.
  subst a. ok_inv H. ok_inv H. injection H as <-.
  exists top, rest, a0. split; [reflexivity|]. split; [|reflexivity].
  rewrite Ha. cbn [rbind]. assumption.
Qed.

Lemma filter_class {A : Type} (c q : A -> bool) (b : bool) (l : list A) :
  (forall x, c x = true -> q x = b) ->
  filter c (filter q l) = if b then filter c l else [].
Proof.
  intros H. induction l as [|x l IH]; cbn [filter].
  - destruct b; reflexivity.
  - destruct (c x) eqn:Ec.
    + rewrite (H x Ec). destruct b; cbn [filter]; rewrite ?Ec, IH; reflexivity.
    + destruct (q x); cbn [filter]; rewrite ?Ec, IH; reflexivity.
Qed.

Lemma prefix_nil {A : Type} (l : list A) : prefix [] l.
Proof. exists l. reflexivity. Qed.

(** C4, as the code has it: the filter returns its survivors by
    descending number of exhibits, and those with the same number of
    exhibits in the reverse of the order of the input: they are an initial
    segment of the reversed input of that number. *)
Theorem ties_come_out_reversed (museums : dict museum_entry)
    (border select : float) (out : list museum_entry) :
  filter_relevant_museums museums border select = Ok out ->
  StronglySorted (descending exhibit_count) out /\
  forall c,
    prefix (filter (of_rank exhibit_count c) out)
           (rev (filter (of_rank exhibit_count c) (values museums))).
Proof.
  intros H. apply filter_relevant_museums_Ok in H.
  destruct H as (top & rest & n & Hranked & _ & ->).
  rewrite <- Hranked.
  destruct (slice_to_firstn n
              (filter (ratio_ok border (exhibit_count top))
                 (reversed_sorted exhibit_count (values museums)))) as (k & ->).
  split.
  - apply StronglySorted_firstn, StronglySorted_filter, reversed_sorted_descending.
  - intros c. rewrite <- reversed_sorted_ties.
    set (ranked := reversed_sorted exhibit_count (values museums)).
    set (q := ratio_ok border (exhibit_count top)).
    destruct (filter_firstn_prefix (of_rank exhibit_count c) k (filter q ranked))
      as (rest1 & Hrest1).
    destruct (filter (of_rank exhibit_count c) (firstn k (filter q ranked)))
      as [|a l] eqn:El; [apply prefix_nil|].
    assert (Ha : In a (filter (of_rank exhibit_count c) (firstn k (filter q ranked))))
      by (rewrite El; left; reflexivity).
    apply filter_In in Ha. destruct Ha as (Ha1 & Ha2).
    assert (Ha3 : In a (filter q ranked)).
    { rewrite <- (firstn_skipn k (filter q ranked)). apply in_or_app; auto. }
    apply filter_In in Ha3. destruct Ha3 as (_ & Hqa).
    rewrite (filter_class (of_rank exhibit_count c) q true) in Hrest1.
    + exists rest1. rewrite Hrest1. reflexivity.
    + intros x Hx. rewrite <- Hqa. apply ratio_ok_count.
      unfold of_rank in *. apply Nat.eqb_eq in Hx, Ha2. congruence.
Qed.

Lemma ties_come_out_reversed_witness :
  StronglySorted (descending exhibit_count) [entry_b; entry_a] /\
  forall c,
    prefix (filter (of_rank exhibit_count c) [entry_b; entry_a])
           (rev (filter (of_rank exhibit_count c) (values museums_tie))).
Proof.
  exact (ties_come_out_reversed museums_tie border_default select_default
           [entry_b; entry_a] eq_refl).
Defined.

(** C4 fails as stated: of two aggregates with one exhibit each, the
    one that comes first in the input comes last in the output. *)
Lemma equal_counts_swap_places :
  filter_relevant_museums museums_tie border_default select_default =
    Ok [entry_b; entry_a] /\
  exhibit_count entry_a = exhibit_count entry_b /\
  precedes entry_a entry_b (values museums_tie) /\
  ~ precedes entry_a entry_b [entry_b; entry_a].
Proof.
  split; [reflexivity|]. split; [reflexivity|]. split.
  - exists [], [], []. reflexivity.
  - intros (l1 & l2 & l3 & H).
    destruct l1 as [|x [|y l1]]; cbn [app] in H.
    + discriminate.
    + injection H as _ H. destruct l2; discriminate.
    + injection H as _ _ H. destruct l1; discriminate.
Qed.

Lemma firstn_hd_error {A : Type} (n : nat) (x : A) (l : list A) :
  (1 <= n)%nat -> hd_error (firstn n (x :: l)) = Some x.
Proof. destruct n; [lia | reflexivity]. Qed.

(** C5: on a dictionary that is not empty, whose entries have
    exhibits, the filter returns the first [ceil(k * select)] of the [k]
    entries that pass the ratio test, taken in the order of the descending
    sort; the ratio test of an entry compares the quotient of its number
    of exhibits and that of the first entry with [border].  What is
    returned is sorted by descending number of exhibits, is no longer than
    the input and starts with the first entry of the sort. *)
Theorem filter_relevant_museums_spec (museums : dict museum_entry)
    (border select : float) :
  museums <> [] ->
  python_sized museums ->
  Forall (fun m => exhibits m <> [] /\ python_sized (exhibits m)) (values museums) ->
  float_ge float_one border = true ->
  unit_float select = true ->
  exists top rest x n,
    reversed_sorted exhibit_count (values museums) = top :: rest /\
    Permutation (top :: rest) (values museums) /\
    StronglySorted (descending exhibit_count) (top :: rest) /\
    (forall m, In m (top :: rest) ->
       exists q,
         int_truediv (Z.of_nat (exhibit_count m)) (Z.of_nat (exhibit_count top)) = Ok q /\
         ratio_ok border (exhibit_count top) m = float_ge q border) /\
    let survivors := filter (ratio_ok border (exhibit_count top)) (top :: rest) in
    int_mul_float (Z.of_nat (length survivors)) select = Ok x /\
    math_ceil x = Ok n /\
    filter_relevant_museums museums border select =
      Ok (firstn (Z.to_nat n) survivors) /\
    StronglySorted (descending exhibit_count) (firstn (Z.to_nat n) survivors) /\
    (length (firstn (Z.to_nat n) survivors) <= length museums)%nat /\
    hd_error (firstn (Z.to_nat n) survivors) = Some top.
Proof.
  intros Hne Hsize Hentries Hborder Hselect.
  pose proof (reversed_sorted_perm exhibit_count (values museums)) as Hperm.
  pose proof (reversed_sorted_descending exhibit_count (values museums)) as Hdesc.
  pose proof (reversed_sorted_length exhibit_count (values museums)) as Hlen.
  unfold values in Hlen at 2. rewrite length_map in Hlen.
  assert (Hall : Forall (fun m => exhibits m <> [] /\ python_sized (exhibits m))
                   (reversed_sorted exhibit_count (values museums))).
  { rewrite Forall_forall in *. intros m Hm. apply Hentries.
    apply (Permutation_in _ Hperm Hm). }
  unfold filter_relevant_museums.
  destruct (reversed_sorted exhibit_count (values museums)) as [|top rest] eqn:Er.
  { destruct museums; [congruence | discriminate]. }
  assert (Htop : exhibits top <> []).
  { inversion Hall as [|? ? [H _] _]; assumption. }
  assert (Hratio : forall m, In m (top :: rest) ->
    exists q,
      int_truediv (Z.of_nat (exhibit_count m)) (Z.of_nat (exhibit_count top)) = Ok q /\
      ratio_test border (exhibit_count top) m = Ok (float_ge q border)).
  { intros m Hm. rewrite Forall_forall in Hall.
    destruct (Hall m Hm) as (Hm1 & Hm2).
    destruct (Hall top (or_introl eq_refl)) as (Ht1 & Ht2).
    assert (Hle : (exhibit_count m <= exhibit_count top)%nat).
    { destruct Hm as [<-|Hm]; [lia|].
      inversion Hdesc as [|? ? _ Hfa]; subst.
      rewrite Forall_forall in Hfa. apply (Hfa m Hm). }
    unfold python_sized, sys_maxsize in Hm2, Ht2. fold (exhibit_count m) in Hm2.
    fold (exhibit_count top) in Ht2.
    assert (Hpos : (0 < exhibit_count m)%nat).
    { unfold exhibit_count. destruct (exhibits m); [congruence | cbn [length]; lia]. }
    unfold ratio_test.
    destruct (Z.of_nat (exhibit_count m)) as [|c|c] eqn:Ec; try lia.
    destruct (Z.of_nat (exhibit_count top)) as [|mx|mx] eqn:Emx; try lia.
    destruct (int_truediv_finite c mx) as (mq & eq & Hq); [lia | lia |].
    rewrite Hq. cbn [rbind]. eauto. }
  set (survivors := filter (ratio_ok border (exhibit_count top)) (top :: rest)).
  destruct (filter_r_total (ratio_test border (exhibit_count top)) (top :: rest))
    as (res & Hres).
  { apply Forall_forall. intros m Hm. destruct (Hratio m Hm) as (q & _ & Hq). eauto. }
  pose proof (filter_r_Ok _ _ _ Hres) as Hres'.
  fold (ratio_ok border (exhibit_count top)) in Hres'. fold survivors in Hres'. subst res.
  assert (Hsurv : survivors = top :: filter (ratio_ok border (exhibit_count top)) rest).
  { unfold survivors. cbn [filter]. unfold ratio_ok at 1.
    rewrite (ratio_test_top border top Htop), Hborder. reflexivity. }
  assert (Hk : (1 <= length survivors <= length museums)%nat).
  { split; [rewrite Hsurv; cbn [length]; lia|].
    unfold survivors. rewrite <- Hlen. apply filter_length_le. }
  destruct (int_mul_float_ceil (Z.of_nat (length survivors)) select)
    as (x & n & Hx & Hn & Hn1); [|assumption|].
  { unfold python_sized, sys_maxsize in Hsize. lia. }
  exists top, rest, x, n.
  split; [reflexivity|]. split; [assumption|]. split; [assumption|]. split.
  { intros m Hm. destruct (Hratio m Hm) as (q & Hq1 & Hq2).
    exists q. split; [assumption|]. unfold ratio_ok. rewrite Hq2. reflexivity. }
  cbv zeta. fold survivors.
  split; [assumption|]. split; [assumption|].
  split; [|split; [|split]].
  - rewrite Hres. cbn [rbind]. rewrite Hx. cbn [rbind]. rewrite Hn. cbn [rbind].
    rewrite slice_to_nonneg by lia. reflexivity.
  - apply StronglySorted_firstn, StronglySorted_filter. exact Hdesc.
  - rewrite length_firstn. lia.
  - rewrite Hsurv. apply firstn_hd_error. lia.
Qed.

Lemma filter_relevant_museums_spec_witness :
  exists top rest x n,
    reversed_sorted exhibit_count (values museums_tie) = top :: rest /\
    Permutation (top :: rest) (values museums_tie) /\
    StronglySorted (descending exhibit_count) (top :: rest) /\
    (forall m, In m (top :: rest) ->
       exists q,
         int_truediv (Z.of_nat (exhibit_count m)) (Z.of_nat (exhibit_count top)) = Ok q /\
         ratio_ok border_default (exhibit_count top) m = float_ge q border_default) /\
    let survivors := filter (ratio_ok border_default (exhibit_count top)) (top :: rest) in
    int_mul_float (Z.of_nat (length survivors)) select_default = Ok x /\
    math_ceil x = Ok n /\
    filter_relevant_museums museums_tie border_default select_default =
      Ok (firstn (Z.to_nat n) survivors) /\
    StronglySorted (descending exhibit_count) (firstn (Z.to_nat n) survivors) /\
    (length (firstn (Z.to_nat n) survivors) <= length museums_tie)%nat /\
    hd_error (firstn (Z.to_nat n) survivors) = Some top.
Proof.
  apply (filter_relevant_museums_spec museums_tie border_default select_default).
  - discriminate.
  - unfold python_sized, sys_maxsize. simpl. lia.
  - repeat constructor; try discriminate; unfold python_sized, sys_maxsize; simpl; lia.
  - reflexivity.
  - reflexivity.
Defined.

(** ** Grouping by locale *)

Lemma filter_filter {A : Type} (f g : A -> bool) (l : list A) :
  filter f (filter g l) = filter (fun x => g x && f x) l.
Proof.
  induction l as [|x l IH]; [reflexivity|]. cbn [filter].
  destruct (g x); cbn [filter andb]; rewrite IH; reflexivity.
Qed.

Lemma filter_true {A : Type} (f : A -> bool) (l : list A) :
  (forall x, f x = true) -> filter f l = l.
Proof.
  intros H. induction l as [|x l IH]; [reflexivity|].
  cbn [filter]. rewrite H, IH. reflexivity.
Qed.

Lemma sorted_ext {A : Type} (r1 r2 : A -> nat) (l : list A) :
  (forall x, r1 x = r2 x) -> sorted r1 l = sorted r2 l.
Proof.
  intros H. induction l as [|x l IH]; [reflexivity|].
  cbn [sorted]. rewrite IH. generalize (sorted r2 l). intros s.
  induction s as [|y s IHs]; [reflexivity|].
  cbn [insert_by]. rewrite !H, IHs. reflexivity.
Qed.

Lemma dict_mem_defaultdict_append {A : Type} (k k0 : key) (x : A)
    (locales : dict (list A)) :
  dict_mem k (defaultdict_append k0 x locales) =
  dict_mem k locales || key_eqb k0 k.
Proof.
  unfold defaultdict_append.
  destruct (dict_mem k0 locales) eqn:E0; unfold dict_mem in *.
  - rewrite dict_find_update.
    destruct (key_eqb k0 k) eqn:E.
    + apply key_eqb_eq in E; subst k0.
      destruct (dict_find k locales); [reflexivity | discriminate].
    + rewrite orb_false_r. reflexivity.
  - rewrite dict_find_add.
    destruct (dict_find k locales); [reflexivity|].
    destruct (key_eqb k0 k); reflexivity.
Qed.

Lemma keys_defaultdict_append {A : Type} (k0 : key) (x : A)
    (locales : dict (list A)) :
  keys (defaultdict_append k0 x locales) =
  if dict_mem k0 locales then keys locales else keys locales ++ [k0].
Proof.
  unfold defaultdict_append. destruct (dict_mem k0 locales).
  - apply keys_dict_update.
  - apply keys_dict_add.
Qed.

Lemma group_of_defaultdict_append {A : Type} (l k0 : key) (x : A)
    (locales : dict (list A)) :
  group_of (defaultdict_append k0 x locales) l =
  group_of locales l ++ (if key_eqb k0 l then [x] else []).
Proof.
  unfold defaultdict_append, group_of.
  destruct (dict_mem k0 locales) eqn:E0.
  - rewrite dict_find_update. destruct (key_eqb k0 l) eqn:E.
    + apply key_eqb_eq in E; subst k0. unfold dict_mem in E0.
      destruct (dict_find l locales); [reflexivity | discriminate].
    + rewrite app_nil_r. reflexivity.
  - rewrite dict_find_add. destruct (key_eqb k0 l) eqn:E.
    + apply key_eqb_eq in E; subst k0.
      rewrite (dict_mem_false_find _ _ E0). reflexivity.
    + destruct (dict_find l locales); rewrite app_nil_r; reflexivity.
Qed.

(** The grouping loop, from any dictionary: the new keys in first-seen
    order, and what each group gains. *)
Lemma group_loop_spec (museums : list museum_entry) :
  forall locales locales',
  group_loop locales museums = Ok locales' ->
  keys locales' =
    keys locales ++
    filter (fun k => negb (dict_mem k locales)) (first_seen (locale_keys museums)) /\
  (forall l, group_of locales' l = group_of locales l ++ filter (has_locale l) museums) /\
  length (locale_keys museums) = length museums.
Proof.
  induction museums as [|m ms IH]; intros locales locales' H; cbn [group_loop] in H.
  - injection H as <-. cbn [locale_keys flat_map first_seen filter].
    rewrite app_nil_r. split; [reflexivity|]. split; [|reflexivity].
    intros l. rewrite app_nil_r. reflexivity.
  - ok_inv H. rename a into k0.
    assert (Hlk : locale_key m = Some k0) by (unfold locale_key; rewrite Ha; reflexivity).
    destruct (IH _ _ H) as (IH1 & IH2 & IH3).
    unfold locale_keys in *. cbn [flat_map]. rewrite Hlk. cbn [app first_seen length].
    split; [|split].
    + rewrite IH1, keys_defaultdict_append. cbn [filter].
      destruct (dict_mem k0 locales) eqn:E0; cbn [negb].
      * f_equal. rewrite filter_filter. apply filter_ext. intros k.
        rewrite dict_mem_defaultdict_append.
        destruct (key_eqb k0 k) eqn:E; cbn [negb andb].
        -- apply key_eqb_eq in E; subst k0. rewrite E0. reflexivity.
        -- rewrite orb_false_r. reflexivity.
      * rewrite <- app_assoc. cbn [app]. f_equal. f_equal.
        rewrite filter_filter. apply filter_ext. intros k.
        rewrite dict_mem_defaultdict_append.
        destruct (key_eqb k0 k), (dict_mem k locales); reflexivity.
    + intros l. rewrite IH2, group_of_defaultdict_append, <- app_assoc.
      f_equal. cbn [filter]. unfold has_locale at 2. rewrite Hlk.
      destruct (key_eqb k0 l); reflexivity.
    + f_equal. exact IH3.
Qed.

Lemma group_loop_total (museums : list museum_entry) :
  forall locales,
  Forall (fun m => locale_key m <> None) museums ->
  exists locales', group_loop locales museums = Ok locales'.
Proof.
  induction museums as [|m ms IH]; intros locales H; cbn [group_loop].
  - eauto.
  - inversion H as [|? ? Hm Hms]; subst. unfold locale_key in Hm.
    destruct (hash (locale m)) as [k|x]; [|congruence].
    cbn [rbind]. apply IH. assumption.
Qed.

(** What the grouping returns, when it returns. *)
Lemma group_by_locale_Ok (museums : list museum_entry) (limit : Z)
    (out : list (key * list museum_entry)) :
  group_by_locale museums limit = Ok out ->
  let ranked :=
    reversed_sorted (group_size museums) (first_seen (locale_keys museums)) in
  out = map (fun l => (l, filter (has_locale l) museums))
          (slice_to (Z.min limit (Z.of_nat (length ranked))) ranked) /\
  length (locale_keys museums) = length museums.
Proof.
  unfold group_by_locale. intros H. ok_inv H. injection H as <-.
  destruct (group_loop_spec _ _ _ Ha) as (Hkeys & Hgroups & Hlen).
  cbn [keys map app] in Hkeys. rewrite filter_true in Hkeys by reflexivity.
  cbv zeta. split; [|assumption].
  assert (Hrank : reversed_sorted (fun l => length (group_of a l)) (keys a) =
                  reversed_sorted (group_size museums)
                    (first_seen (locale_keys museums))).
  { unfold reversed_sorted. rewrite Hkeys. f_equal. apply sorted_ext.
    intros l. rewrite Hgroups. reflexivity. }
  rewrite Hrank. apply map_ext. intros l. rewrite Hgroups. reflexivity.
Qed.

Lemma StronglySorted_map {A B : Type} (R : B -> B -> Prop) (f : A -> B)
    (l : list A) :
  StronglySorted (fun a b => R (f a) (f b)) l -> StronglySorted R (map f l).
Proof.
  induction 1 as [|a l Hl IH Ha]; cbn [map]; constructor; [assumption|].
  apply Forall_map. assumption.
Qed.

(** C6: for a limit that is not negative the grouping returns at most
    [limit] groups, by descending number of museums, and the museums of a
    group are those of its locale in the order they have in the filtered
    sequence.  It does return when every locale can be hashed. *)
Theorem group_by_locale_spec (museums : list museum_entry) (limit : Z) :
  0 <= limit ->
  (Forall (fun m => locale_key m <> None) museums ->
   exists out, group_by_locale museums limit = Ok out) /\
  (forall out, group_by_locale museums limit = Ok out ->
     Z.of_nat (length out) <= limit /\
     StronglySorted larger_first out /\
     forall l ms, In (l, ms) out -> ms = filter (has_locale l) museums).
Proof.
  intros Hlimit. split.
  - intros Hall. unfold group_by_locale.
    destruct (group_loop_total museums [] Hall) as (locales & ->).
    cbn [rbind]. eauto.
  - intros out H. apply group_by_locale_Ok in H. cbv zeta in H.
    destruct H as (-> & _).
    set (ranked := reversed_sorted (group_size museums)
                     (first_seen (locale_keys museums))).
    rewrite slice_to_nonneg by lia.
    split; [|split].
    + rewrite length_map, length_firstn. lia.
    + apply StronglySorted_map. unfold larger_first. cbn [snd].
      apply (StronglySorted_firstn (descending (group_size museums))).
      apply reversed_sorted_descending.
    + intros l ms Hin. apply in_map_iff in Hin.
      destruct Hin as (l' & Heq & _). injection Heq as <- <-. reflexivity.
Qed.

Lemma group_by_locale_spec_witness :
  (Forall (fun m => locale_key m <> None) museums_three_cities ->
   exists out, group_by_locale museums_three_cities 2 = Ok out) /\
  (forall out, group_by_locale museums_three_cities 2 = Ok out ->
     Z.of_nat (length out) <= 2 /\
     StronglySorted larger_first out /\
     forall l ms, In (l, ms) out -> ms = filter (has_locale l) museums_three_cities).
Proof.
  apply (group_by_locale_spec museums_three_cities 2). lia.
Defined.

(** ** The order of the locations *)

Lemma precedes_In {A : Type} (a b : A) (l : list A) :
  precedes a b l -> In a l /\ In b l.
Proof.
  intros (l1 & l2 & l3 & ->). split.
  - apply in_or_app. right. left. reflexivity.
  - apply in_or_app. right. right. apply in_or_app. right. left. reflexivity.
Qed.

Lemma precedes_app_l {A : Type} (a b : A) (l r : list A) :
  precedes a b l -> precedes a b (l ++ r).
Proof.
  intros (l1 & l2 & l3 & ->). exists l1, l2, (l3 ++ r).
  rewrite <- !app_assoc. cbn [app]. rewrite <- app_assoc. reflexivity.
Qed.

Lemma precedes_cons {A : Type} (a b x : A) (l : list A) :
  precedes a b l -> precedes a b (x :: l).
Proof. intros (l1 & l2 & l3 & ->). exists (x :: l1), l2, l3. reflexivity. Qed.

Lemma precedes_rev {A : Type} (a b : A) (l : list A) :
  precedes a b (rev l) -> precedes b a l.
Proof.
  intros (l1 & l2 & l3 & H). exists (rev l3), (rev l2), (rev l1).
  rewrite <- (rev_involutive l), H.
  rewrite rev_app_distr. cbn [rev]. rewrite rev_app_distr. cbn [rev].
  rewrite <- !app_assoc. reflexivity.
Qed.

Lemma precedes_filter_intro {A : Type} (p : A -> bool) (a b : A) (l : list A) :
  p a = true -> p b = true -> precedes a b l -> precedes a b (filter p l).
Proof.
  intros Ha Hb (l1 & l2 & l3 & ->).
  exists (filter p l1), (filter p l2), (filter p l3).
  rewrite filter_app. cbn [filter]. rewrite Ha, filter_app. cbn [filter].
  rewrite Hb. reflexivity.
Qed.

Lemma precedes_filter_elim {A : Type} (p : A -> bool) (a b : A) (l : list A) :
  precedes a b (filter p l) -> precedes a b l.
Proof.
  induction l as [|x l IH]; cbn [filter]; intros H.
  - destruct H as (l1 & l2 & l3 & H). destruct l1; discriminate.
  - destruct (p x).
    + destruct H as (l1 & l2 & l3 & H). destruct l1 as [|y l1]; cbn [app] in H.
      * injection H as <- H.
        assert (Hb : In b l).
        { assert (Hf : In b (filter p l))
            by (rewrite H; apply in_or_app; right; left; reflexivity).
          apply filter_In in Hf. tauto. }
        apply in_split in Hb. destruct Hb as (m1 & m2 & ->).
        exists [], m1, m2. reflexivity.
      * injection H as <- H. apply precedes_cons, IH.
        exists l1, l2, l3. assumption.
    + apply precedes_cons, IH, H.
Qed.

Lemma precedes_first_seen (a b : key) (l : list key) :
  precedes a b (first_seen l) -> (index_of a l < index_of b l)%nat.
Proof.
  induction l as [|k l IH]; cbn [first_seen]; intros H.
  - destruct H as (l1 & l2 & l3 & H). destruct l1; discriminate.
  - destruct H as (l1 & l2 & l3 & H). destruct l1 as [|y l1]; cbn [app] in H.
    + injection H as <- H.
      assert (Hb : In b (filter (fun k' => negb (key_eqb k k')) (first_seen l)))
        by (rewrite H; apply in_or_app; right; left; reflexivity).
      apply filter_In in Hb. destruct Hb as (_ & Hb).
      cbn [index_of]. rewrite key_eqb_refl.
      destruct (key_eqb k b); [discriminate | lia].
    + injection H as <- H.
      assert (Hp : precedes a b (filter (fun k' => negb (key_eqb k k')) (first_seen l)))
        by (exists l1, l2, l3; assumption).
      destruct (precedes_In _ _ _ Hp) as (Ha & Hb).
      apply filter_In in Ha, Hb. destruct Ha as (_ & Ha). destruct Hb as (_ & Hb).
      apply precedes_filter_elim, IH in Hp.
      cbn [index_of].
      destruct (key_eqb k a); [discriminate|].
      destruct (key_eqb k b); [discriminate | lia].
Qed.

(** C10: the locations come out as the stable ascending sort by the
    number of museums of the locations in the order they are first seen,
    reversed and cut; of two locations with the same number of museums
    the one that comes first in the result is the one whose first museum
    comes later in the filtered sequence. *)
Theorem equal_groups_come_out_last_seen_first (museums : list museum_entry)
    (limit : Z) (out : list (key * list museum_entry)) :
  group_by_locale museums limit = Ok out ->
  let seen := first_seen (locale_keys museums) in
  (exists k, map fst out = firstn k (rev (sorted (group_size museums) seen))) /\
  (forall c,
     prefix (filter (of_rank (group_size museums) c) (map fst out))
            (rev (filter (of_rank (group_size museums) c) seen))) /\
  (forall l1 l2,
     group_size museums l1 = group_size museums l2 ->
     precedes l1 l2 (map fst out) ->
     (index_of l2 (locale_keys museums) < index_of l1 (locale_keys museums))%nat).
Proof.
  intros H seen. apply group_by_locale_Ok in H. cbv zeta in H.
  destruct H as (-> & _). fold seen.
  set (ranked := reversed_sorted (group_size museums) seen).
  destruct (slice_to_firstn (Z.min limit (Z.of_nat (length ranked))) ranked)
    as (k & ->).
  rewrite map_map. cbn [fst]. rewrite map_id.
  assert (Hclass : forall c,
     prefix (filter (of_rank (group_size museums) c) (firstn k ranked))
            (rev (filter (of_rank (group_size museums) c) seen))).
  { intros c. unfold ranked. rewrite <- reversed_sorted_ties.
    apply filter_firstn_prefix. }
  split; [exists k; reflexivity|]. split; [exact Hclass|].
  intros l1 l2 Heq Hp.
  destruct (precedes_In _ _ _ Hp) as (H1 & H2).
  set (c := group_size museums l1).
  assert (Hc1 : of_rank (group_size museums) c l1 = true)
    by (apply Nat.eqb_refl).
  assert (Hc2 : of_rank (group_size museums) c l2 = true)
    by (unfold of_rank, c; rewrite Heq; apply Nat.eqb_refl).
  apply (precedes_filter_intro _ _ _ _ Hc1 Hc2) in Hp.
  destruct (Hclass c) as (rest & Hrest).
  apply (precedes_app_l _ _ _ rest) in Hp. rewrite <- Hrest in Hp.
  apply precedes_rev, precedes_filter_elim in Hp.
  apply precedes_first_seen. assumption.
Qed.

Lemma equal_groups_come_out_last_seen_first_witness :
  let museums := museums_three_cities in
  let out :=
    [(KStr "CityA", filter (has_locale (KStr "CityA")) museums);
     (KStr "CityC", filter (has_locale (KStr "CityC")) museums);
     (KStr "CityB", filter (has_locale (KStr "CityB")) museums)] in
  let seen := first_seen (locale_keys museums) in
  (exists k, map fst out = firstn k (rev (sorted (group_size museums) seen))) /\
  (forall c,
     prefix (filter (of_rank (group_size museums) c) (map fst out))
            (rev (filter (of_rank (group_size museums) c) seen))) /\
  (forall l1 l2,
     group_size museums l1 = group_size museums l2 ->
     precedes l1 l2 (map fst out) ->
     (index_of l2 (locale_keys museums) < index_of l1 (locale_keys museums))%nat).
Proof.
  exact (equal_groups_come_out_last_seen_first museums_three_cities 7 _ eq_refl).
Defined.

(** ** The scenarios of the specification *)

(** The literals are the correctly rounded quotients. *)
Example border_default_is_4_over_100 : int_truediv 4 100 = Ok border_default.
Proof. reflexivity. Qed.

Example select_default_is_8_over_10 : int_truediv 8 10 = Ok select_default.
Proof. reflexivity. Qed.

Example ceil_of_five_times_select :
  (x <- int_mul_float 5 select_default ;; math_ceil x)%py = Ok 4.
Proof. reflexivity. Qed.

(** Two museums of one city: one group, the museum with two exhibits
    first. *)
Example scenario_a :
  snd (get_sorted_locales "vase" 7 (fresh store_a)) =
  Ok [(KStr "CityA",
       [{| name := VStr "M1"; locale := VStr "CityA";
           exhibits := [VStr "Vase"; VStr "Urn"] |};
        {| name := VStr "M2"; locale := VStr "CityA";
           exhibits := [VStr "Coin"] |}])].
Proof. reflexivity. Qed.

(** One exhibit against thirty is below the border, one against
    twenty-five is not. *)
Example scenario_b :
  ratio_ok border_default 30 entry_a = false /\
  ratio_ok border_default 25 entry_a = true.
Proof. split; reflexivity. Qed.

Example int_of_string_examples :
  int_of_string " 1_000 " = Ok 1000 /\
  int_of_string "-12" = Ok (-12) /\
  int_of_string "1__0" = Raise ValueError /\
  int_of_string "abc" = Raise ValueError.
Proof. repeat split; reflexivity. Qed.

(** [int] does not strip like [str.strip]: the separators 28 to 31 are
    white space for [str.isspace] and not for [int]; the white space and
    the decimal digits of other scripts are read (here U+00A0 and the
    Arabic-Indic digits); more than 4300 digits are refused. *)
Example int_of_string_is_not_strip :
  int_of_string (String (ascii_of_nat 28) "1") = Raise ValueError /\
  int_of_string (String (ascii_of_nat 194) (String (ascii_of_nat 160) "1"))
    = Ok 1 /\
  int_of_string "١" = Ok 1 /\
  int_of_string "-١٢" = Ok (-12) /\
  int_of_string (string_of_list_ascii (repeat "0"%char 4300)) = Ok 0 /\
  int_of_string (string_of_list_ascii (repeat "0"%char 4301))
    = Raise ValueError.
Proof. vm_compute. repeat split. Qed.

(** The slice of [get_sorted_locales] with a negative limit counts from
    the end, as every Python slice does: of three locations, a limit of
    [-1] keeps the first two. *)
Example negative_limit_counts_from_the_end :
  option_map (map fst)
    (match group_by_locale museums_three_cities (-1) with
     | Ok out => Some out
     | Raise _ => None
     end) = Some [KStr "CityA"; KStr "CityC"].
Proof. reflexivity. Qed.

(** * Further properties *)

(** ** The join in closed form *)

Lemma dict_mem_update {V : Type} (k k0 : key) (f : V -> V) (d : dict V) :
  dict_mem k (dict_update k0 f d) = dict_mem k d.
Proof.
  unfold dict_mem. rewrite dict_find_update.
  destruct (key_eqb k0 k); [|reflexivity].
  destruct (dict_find k d); reflexivity.
Qed.

Lemma dict_mem_add {V : Type} (k k0 : key) (v : V) (d : dict V) :
  dict_mem k (dict_add k0 v d) = dict_mem k d || key_eqb k0 k.
Proof.
  unfold dict_mem. rewrite dict_find_add.
  destruct (dict_find k d); [reflexivity|].
  destruct (key_eqb k0 k); reflexivity.
Qed.

(** Two dictionaries with the same keys in the same order, none twice,
    and the same value at each key are the same dictionary. *)
Lemma dict_ext {V : Type} (d1 : dict V) :
  forall d2,
  keys d1 = keys d2 -> NoDup (keys d1) ->
  (forall k, In k (keys d1) -> dict_find k d1 = dict_find k d2) ->
  d1 = d2.
Proof.
  induction d1 as [|[k v] d1 IH]; intros [|[k' v'] d2] Hk Hnd Hf;
    try discriminate; [reflexivity|].
  cbn [keys map fst] in Hk, Hnd. injection Hk as <- Hk.
  inversion Hnd as [|? ? Hnin Hnd']; subst.
  pose proof (Hf k (or_introl eq_refl)) as Hv. cbn [dict_find] in Hv.
  rewrite key_eqb_refl in Hv. injection Hv as <-.
  f_equal. apply IH; [assumption | assumption |].
  intros k1 Hk1. specialize (Hf k1 (or_intror Hk1)). cbn [dict_find] in Hf.
  destruct (key_eqb k k1) eqn:E; [|assumption].
  apply key_eqb_eq in E; subst k1. contradiction.
Qed.

(** The keys of the join, in order: those it starts with, then the
    identifiers that resolve, at their first occurrence. *)
Lemma join_loop_keys (es : list value) :
  forall museums w w' museums',
  join_loop museums es w = (w', Ok museums') ->
  Forall (fun k => resolves (db w) k = true) (keys museums) ->
  keys museums' =
    keys museums ++
    filter (fun k => negb (dict_mem k museums))
      (first_seen (filter (resolves (db w)) (valid_ids es))).
Proof.
  induction es as [|e es IH]; intros museums w w' museums' Hrun Hres.
  - cbn [join_loop] in Hrun. unfold ret in Hrun. injection Hrun as <- <-.
    cbn. rewrite app_nil_r. reflexivity.
  - apply join_loop_cons in Hrun. destruct Hrun as (w1 & museums1 & Hstep & Hrest).
    apply join_step_Ok in Hstep.
    pose proof (step_outcome_db _ _ _ _ _ Hstep) as Hdb.
    pose proof (step_outcome_keys_resolve _ _ _ _ _ Hstep Hres) as Hres1.
    rewrite <- Hdb in Hres1.
    specialize (IH _ _ _ _ Hrest Hres1). rewrite Hdb in IH. rewrite IH. clear IH.
    unfold valid_ids. cbn [flat_map]. fold (valid_ids es).
    set (FS := first_seen (filter (resolves (db w)) (valid_ids es))).
    destruct Hstep as [Hk Hv | k0 n Hk Hm | k0 n i loc nam Hk Hm Hi Hr Hmf
                       | k0 n i Hk Hm Hi Hr]; rewrite Hk; cbn [app].
    + reflexivity.
    + assert (Hr0 : resolves (db w) k0 = true).
      { rewrite Forall_forall in Hres. apply Hres, dict_mem_true. assumption. }
      rewrite keys_dict_update. cbn [filter]. rewrite Hr0. cbn [first_seen filter].
      rewrite Hm. cbn [negb]. f_equal. fold FS.
      rewrite filter_filter. apply filter_ext. intros k.
      rewrite dict_mem_update.
      destruct (key_eqb k0 k) eqn:E; cbn [negb andb]; [|reflexivity].
      apply key_eqb_eq in E; subst k0. rewrite Hm. reflexivity.
    + rewrite keys_dict_add. cbn [filter]. rewrite Hr. cbn [first_seen filter].
      rewrite Hm. cbn [negb]. rewrite <- app_assoc. cbn [app]. f_equal. f_equal.
      fold FS. rewrite filter_filter. apply filter_ext. intros k.
      rewrite dict_mem_add.
      destruct (key_eqb k0 k), (dict_mem k museums); reflexivity.
    + cbn [filter]. rewrite Hr. reflexivity.
Qed.

(** The name and the locale of every entry are those of the museum its
    key leads to. *)
Lemma join_loop_fields (es : list value) :
  forall museums w w' museums',
  join_loop museums es w = (w', Ok museums') ->
  (forall k m, dict_find k museums = Some m ->
     exists i, py_int (value_of_key k) = Ok i /\
       museum_fields (museums_find_one (db w) i) = Ok (locale m, name m)) ->
  forall k m, dict_find k museums' = Some m ->
    exists i, py_int (value_of_key k) = Ok i /\
      museum_fields (museums_find_one (db w) i) = Ok (locale m, name m).
Proof.
  induction es as [|e es IH]; intros museums w w' museums' Hrun Hgood.
  - cbn [join_loop] in Hrun. unfold ret in Hrun. injection Hrun as <- <-. assumption.
  - apply join_loop_cons in Hrun. destruct Hrun as (w1 & museums1 & Hstep & Hrest).
    apply join_step_Ok in Hstep.
    pose proof (step_outcome_db _ _ _ _ _ Hstep) as Hdb.
    specialize (IH _ _ _ _ Hrest). rewrite Hdb in IH. apply IH. clear IH.
    destruct Hstep as [Hk Hv | k0 n Hk Hm | k0 n i loc nam Hk Hm Hi Hr Hmf
                       | k0 n i Hk Hm Hi Hr]; try assumption.
    + intros k m. rewrite dict_find_update.
      destruct (key_eqb k0 k); [|apply Hgood].
      destruct (dict_find k museums) as [m0|] eqn:E; [|discriminate].
      cbn [option_map]. intros H; injection H as <-.
      cbn [append_exhibit locale name]. apply Hgood. assumption.
    + intros k m. rewrite dict_find_add.
      destruct (dict_find k museums) as [m0|] eqn:E.
      * intros H; injection H as <-. apply Hgood. assumption.
      * destruct (key_eqb k0 k) eqn:Ek; [|discriminate].
        apply key_eqb_eq in Ek; subst k0.
        intros H; injection H as <-. cbn [locale name]. eauto.
Qed.

Lemma resolves_entry_for (s : store) (es : list value) (k : key) :
  resolves s k = true -> exists m, entry_for s es k = Some m.
Proof.
  unfold resolves, entry_for.
  destruct (py_int (value_of_key k)) as [i|]; [|discriminate].
  cbv zeta. rewrite andb_true_iff. intros [_ H].
  destruct (museum_fields (museums_find_one s i)) as [[loc nam]|]; [eauto | discriminate].
Qed.

Lemma keys_joined (s : store) (es : list value) :
  keys (joined s es) = first_seen (filter (resolves s) (valid_ids es)).
Proof.
  unfold joined.
  assert (H : Forall (fun k => resolves s k = true)
                (first_seen (filter (resolves s) (valid_ids es)))).
  { apply Forall_forall. intros k Hk. apply first_seen_In, filter_In in Hk. tauto. }
  induction H as [|k l Hk Hl IH]; [reflexivity|].
  cbn [flat_map]. destruct (resolves_entry_for s es k Hk) as (m & ->).
  cbn [app keys map fst]. f_equal. exact IH.
Qed.

Lemma dict_find_joined (s : store) (es : list value) (k : key) :
  In k (keys (joined s es)) -> dict_find k (joined s es) = entry_for s es k.
Proof.
  rewrite keys_joined. unfold joined.
  generalize (first_seen (filter (resolves s) (valid_ids es))). intros l.
  induction l as [|k0 l IH]; [intros []|].
  cbn [flat_map]. intros Hin.
  destruct (key_eq_dec k0 k) as [->|Hne].
  - destruct (entry_for s es k) as [m|] eqn:E.
    + cbn [app dict_find]. rewrite key_eqb_refl. reflexivity.
    + cbn [app]. destruct Hin as [_|Hin]; [|auto].
      clear IH. induction l as [|k1 l IHl]; [reflexivity|].
      cbn [flat_map]. destruct (entry_for s es k1) as [m1|] eqn:E1; [|exact IHl].
      cbn [app dict_find]. destruct (key_eqb k1 k) eqn:Ek; [|exact IHl].
      apply key_eqb_eq in Ek. congruence.
  - destruct Hin as [?|Hin]; [contradiction|].
    destruct (entry_for s es k0) as [m|]; cbn [app]; [|auto].
    cbn [dict_find]. apply key_eqb_neq in Hne. rewrite Hne. auto.
Qed.

(** X1: the join returns, for each identifier of a valid exhibit that
    resolves, in the order of their first occurrence, one entry with the
    name and the locale name of the museum and the names of the valid
    exhibits of that identifier. *)
Theorem join_closed_form (w w' : world) (query : string)
    (museums : dict museum_entry) :
  get_museums_with_locales_and_exhibits query w = (w', Ok museums) ->
  museums = joined (db w) (exhibits_find (db w) query).
Proof.
  intros Hrun.
  destruct (join_spec _ _ _ _ Hrun) as (_ & Hnd & _ & Hex & _).
  rewrite get_museums_eq in Hrun.
  pose proof (join_loop_keys _ _ _ _ _ Hrun (Forall_nil _)) as Hkeys.
  cbn [db log keys map app] in Hkeys. rewrite filter_true in Hkeys by reflexivity.
  assert (Hfields := join_loop_fields _ _ _ _ _ Hrun).
  cbn [db log] in Hfields.
  specialize (Hfields ltac:(intros k m H; discriminate)).
  set (es := exhibits_find (db w) query) in *.
  apply dict_ext.
  - rewrite keys_joined. exact Hkeys.
  - exact Hnd.
  - intros k Hk. rewrite dict_find_joined by (rewrite keys_joined, <- Hkeys; exact Hk).
    apply dict_find_In_keys in Hk.
    destruct (dict_find k museums) as [m|] eqn:Ef; [|congruence].
    destruct (Hfields k m Ef) as (i & Hi & Hmf).
    pose proof (Hex k m Ef) as Hn.
    unfold entry_for. rewrite Hi, Hmf. f_equal.
    destruct m as [nm lc ex]. cbn [name locale exhibits] in *. subst ex. reflexivity.
Qed.

Lemma join_closed_form_witness :
  [(KInt 1, {| name := VStr "M1"; locale := VStr "CityA";
               exhibits := [VStr "Vase"; VStr "Urn"] |});
   (KInt 2, {| name := VStr "M2"; locale := VStr "CityA";
               exhibits := [VStr "Coin"] |})] =
  joined store_a (exhibits_find store_a "vase").
Proof.
  exact (join_closed_form (fresh store_a) _ "vase" _ eq_refl).
Defined.

(** ** One museum under two codes *)

Lemma resolves_by_int (s : store) (k1 k2 : key) :
  py_int (value_of_key k1) = py_int (value_of_key k2) ->
  resolves s k1 = resolves s k2.
Proof. unfold resolves. intros ->. reflexivity. Qed.

(** X2: the dictionary is keyed by the codes as they are, the museums
    are looked up by [int] of the code: two different codes of valid
    exhibits that convert to the same integer, as [1] and ["1"], give two
    entries with the same museum name and locale, each with the exhibits
    of its own code only. *)
Theorem same_museum_under_two_codes (w w' : world) (query : string)
    (museums : dict museum_entry) (k1 k2 : key) :
  get_museums_with_locales_and_exhibits query w = (w', Ok museums) ->
  let es := exhibits_find (db w) query in
  In k1 (valid_ids es) -> In k2 (valid_ids es) -> k1 <> k2 ->
  py_int (value_of_key k1) = py_int (value_of_key k2) ->
  resolves (db w) k1 = true ->
  exists m1 m2,
    dict_find k1 museums = Some m1 /\ dict_find k2 museums = Some m2 /\
    name m1 = name m2 /\ locale m1 = locale m2 /\
    exhibits m1 = names_of k1 es /\ exhibits m2 = names_of k2 es.
Proof.
  intros Hrun es H1 H2 Hne Hint Hr1.
  assert (Hr2 : resolves (db w) k2 = true)
    by (rewrite <- (resolves_by_int _ _ _ Hint); assumption).
  destruct (join_spec _ _ _ _ Hrun) as (_ & _ & Hkeys & Hex & _).
  fold es in Hkeys, Hex.
  rewrite get_museums_eq in Hrun.
  assert (Hfields := join_loop_fields _ _ _ _ _ Hrun).
  cbn [db log] in Hfields.
  specialize (Hfields ltac:(intros k m H; discriminate)).
  assert (Hin1 : In k1 (keys museums)) by (apply Hkeys; auto).
  assert (Hin2 : In k2 (keys museums)) by (apply Hkeys; auto).
  apply dict_find_In_keys in Hin1, Hin2.
  destruct (dict_find k1 museums) as [m1|] eqn:E1; [|congruence].
  destruct (dict_find k2 museums) as [m2|] eqn:E2; [|congruence].
  destruct (Hfields _ _ E1) as (i1 & Hi1 & Hf1).
  destruct (Hfields _ _ E2) as (i2 & Hi2 & Hf2).
  assert (i1 = i2) by congruence. subst i2.
  rewrite Hf1 in Hf2. injection Hf2 as Hl Hn.
  exists m1, m2. auto 10.
Qed.

Lemma same_museum_under_two_codes_witness :
  exists m1 m2,
    dict_find (KInt 1) (joined store_two_codes (exhibits_find store_two_codes "vase")) = Some m1 /\
    dict_find (KStr "1") (joined store_two_codes (exhibits_find store_two_codes "vase")) = Some m2 /\
    name m1 = name m2 /\ locale m1 = locale m2 /\
    exhibits m1 = names_of (KInt 1) (exhibits_find store_two_codes "vase") /\
    exhibits m2 = names_of (KStr "1") (exhibits_find store_two_codes "vase").
Proof.
  apply (same_museum_under_two_codes (fresh store_two_codes)
           (log (FindOneMuseum 1) (log (FindOneMuseum 1)
              (log (FindExhibits "vase") (fresh store_two_codes))))
           "vase"%string).
  - reflexivity.
  - left; reflexivity.
  - right; left; reflexivity.
  - discriminate.
  - reflexivity.
  - reflexivity.
Defined.

(** ** A document without its fields *)

Lemma join_loop_app (l1 l2 : list value) :
  forall museums w,
  join_loop museums (l1 ++ l2) w =
  bind (join_loop museums l1) (fun museums' => join_loop museums' l2) w.
Proof.
  induction l1 as [|e l1 IH]; intros museums w; cbn [app join_loop].
  - reflexivity.
  - unfold bind.
    destruct (join_step museums e w) as [w1 [museums1|x]]; [|reflexivity].
    rewrite IH. unfold bind. reflexivity.
Qed.

Lemma join_loop_total_db (es : list value) :
  forall museums w,
  Forall (fun e => well_formed (db w) e = true) es ->
  exists w' museums', join_loop museums es w = (w', Ok museums') /\ db w' = db w.
Proof.
  induction es as [|e es IH]; intros museums w Hwf.
  - eexists _, _; split; reflexivity.
  - inversion Hwf as [|? ? He Hes]; subst.
    destruct (join_step_total museums e w He) as (w1 & museums1 & Hstep & Hdb).
    rewrite <- Hdb in Hes.
    destruct (IH museums1 w1 Hes) as (w' & museums' & Hrest & Hdb').
    exists w', museums'. cbn [join_loop]. unfold bind. rewrite Hstep.
    split; [exact Hrest | congruence].
Qed.

(** X3: the search result is gone through in order, and the first
    document from which the museum code or the name cannot be read ends
    the join with the error of that reading ([KeyError] for a missing
    key, [TypeError] for a field that is no dictionary): the entries made
    from the documents before it are lost, and the documents after it are
    not looked at, the calls made are those for the documents before. *)
Theorem first_unreadable_exhibit_aborts (w : world) (query : string)
    (good rest : list value) (e : value) (x : exn) :
  exhibits_find (db w) query = good ++ e :: rest ->
  Forall (fun e' => well_formed (db w) e' = true) good ->
  exhibit_fields e = Raise x ->
  exists w' museums_before,
    join_loop [] good (log (FindExhibits query) w) = (w', Ok museums_before) /\
    get_museums_with_locales_and_exhibits query w = (w', Raise x).
Proof.
  intros Hes Hgood Hf. rewrite get_museums_eq, Hes.
  destruct (join_loop_total_db good [] (log (FindExhibits query) w) Hgood)
    as (w' & museums' & Hrun & _).
  exists w', museums'. split; [assumption|].
  rewrite join_loop_app. unfold bind at 1. rewrite Hrun.
  cbn [join_loop]. unfold bind. rewrite join_step_eq, Hf. reflexivity.
Qed.

Lemma first_unreadable_exhibit_aborts_witness :
  exists w' museums_before,
    join_loop [] [exhibit_doc (VInt 1) (VStr "Vase")]
      (log (FindExhibits "vase") (fresh store_broken)) = (w', Ok museums_before) /\
    get_museums_with_locales_and_exhibits "vase" (fresh store_broken) =
      (w', Raise KeyError).
Proof.
  apply (first_unreadable_exhibit_aborts (fresh store_broken) "vase"
           [exhibit_doc (VInt 1) (VStr "Vase")]
           [exhibit_doc (VInt 2) (VStr "Coin")] exhibit_without_code KeyError).
  - reflexivity.
  - repeat constructor.
  - reflexivity.
Defined.

(** ** The queries of a run *)

Lemma join_step_calls (museums : dict museum_entry) (e : value) (w w' : world)
    (r : result (dict museum_entry)) :
  join_step museums e w = (w', r) ->
  w' = w \/
  exists c n i,
    valid_exhibit e = Some (c, n) /\ py_int c = Ok i /\
    w' = log (FindOneMuseum i) w.
Proof.
  rewrite join_step_eq. unfold valid_exhibit.
  destruct (exhibit_fields e) as [[c n]|x] eqn:Ef;
    [|intros H; injection H as <- _; auto].
  destruct (negb (is_none c) && negb (is_none n)) eqn:Ev;
    [|intros H; injection H as <- _; auto].
  destruct (hash c) as [k|x]; [|intros H; injection H as <- _; auto].
  destruct (dict_mem k museums); [intros H; injection H as <- _; auto|].
  destruct (py_int c) as [i|x] eqn:Ei; [|intros H; injection H as <- _; auto].
  cbv zeta. intros H. right. exists c, n, i.
  split; [reflexivity|]. split; [assumption|].
  destruct (negb (is_none (museums_find_one (db w) i)));
    [|injection H as <- _; reflexivity].
  destruct (museum_fields (museums_find_one (db w) i)) as [[loc nam]|x];
    [|injection H as <- _; reflexivity].
  destruct (negb (is_none loc) && negb (is_none nam));
    injection H as <- _; reflexivity.
Qed.

Lemma join_loop_calls (es : list value) :
  forall museums w w' r,
  join_loop museums es w = (w', r) ->
  exists ids,
    w' = {| db := db w; calls := calls w ++ map FindOneMuseum ids |} /\
    (length ids <= length es)%nat /\
    Forall (fun i => exists e c n,
              In e es /\ valid_exhibit e = Some (c, n) /\ py_int c = Ok i) ids.
Proof.
  induction es as [|e es IH]; intros museums w w' r Hrun.
  - cbn [join_loop] in Hrun. unfold ret in Hrun. injection Hrun as <- _.
    exists []. cbn [map]. rewrite app_nil_r. destruct w; auto.
  - cbn [join_loop] in Hrun. unfold bind in Hrun.
    destruct (join_step museums e w) as [w1 r1] eqn:Hstep.
    apply join_step_calls in Hstep.
    assert (Hlift : forall ids,
      Forall (fun i => exists e0 c n,
                In e0 es /\ valid_exhibit e0 = Some (c, n) /\ py_int c = Ok i) ids ->
      Forall (fun i => exists e0 c n,
                In e0 (e :: es) /\ valid_exhibit e0 = Some (c, n) /\ py_int c = Ok i) ids).
    { intros ids. apply Forall_impl. intros i (e0 & c & n & H1 & H2).
      exists e0, c, n. split; [right; assumption | assumption]. }
    destruct r1 as [museums1|x].
    + destruct (IH _ _ _ _ Hrun) as (ids & -> & Hlen & Hids).
      destruct Hstep as [-> | (c & n & i & Hv & Hi & ->)].
      * exists ids. split; [reflexivity|]. split; [cbn [length]; lia | auto].
      * exists (i :: ids). cbn [db log calls map length]. rewrite <- app_assoc.
        split; [reflexivity|]. split; [lia|].
        constructor; [|auto]. exists e, c, n. split; [left; reflexivity | auto].
    + injection Hrun as <- _.
      destruct Hstep as [-> | (c & n & i & Hv & Hi & ->)].
      * exists []. cbn [map]. rewrite app_nil_r. destruct w.
        split; [reflexivity|]. split; [cbn [length]; lia | constructor].
      * exists [i]. split; [reflexivity|]. split; [cbn [length]; lia|].
        constructor; [|constructor].
        exists e, c, n. split; [left; reflexivity | auto].
Qed.

(** X4: whatever its outcome, a run of the join sends one text search,
    for the query, and after it only museum lookups, at most one per
    document of the search result and each for the integer of the code of
    a valid exhibit of the result; it leaves the store as it is. *)
Theorem join_queries (w : world) (query : string) :
  let w' := fst (get_museums_with_locales_and_exhibits query w) in
  let es := exhibits_find (db w) query in
  db w' = db w /\
  exists ids,
    calls w' = calls w ++ FindExhibits query :: map FindOneMuseum ids /\
    (length ids <= length es)%nat /\
    Forall (fun i => exists e c n,
              In e es /\ valid_exhibit e = Some (c, n) /\ py_int c = Ok i) ids.
Proof.
  cbv zeta. rewrite get_museums_eq.
  destruct (join_loop [] (exhibits_find (db w) query) (log (FindExhibits query) w))
    as [w' r] eqn:Hrun.
  destruct (join_loop_calls _ _ _ _ _ Hrun) as (ids & -> & Hlen & Hids).
  cbn [fst db calls log]. split; [reflexivity|].
  exists ids. rewrite <- app_assoc. auto.
Qed.

(** ** What the relevance filter keeps *)

Lemma filter_partition_perm {A : Type} (p : A -> bool) (l : list A) :
  Permutation (filter p l ++ filter (fun x => negb (p x)) l) l.
Proof.
  induction l as [|x l IH]; [constructor|].
  cbn [filter]. destruct (p x); cbn [negb app].
  - constructor. exact IH.
  - eapply perm_trans; [apply Permutation_sym, Permutation_middle|].
    constructor. exact IH.
Qed.

(** X5: the filter returns museums of its input, none more often than
    the input has it: what it returns, together with what it drops, is a
    rearrangement of the values of the dictionary. *)
Theorem filter_returns_input_museums (museums : dict museum_entry)
    (border select : float) (out : list museum_entry) :
  filter_relevant_museums museums border select = Ok out ->
  exists dropped, Permutation (out ++ dropped) (values museums).
Proof.
  intros H. apply filter_relevant_museums_Ok in H.
  destruct H as (top & rest & n & Hranked & _ & ->).
  rewrite <- Hranked.
  set (ranked := reversed_sorted exhibit_count (values museums)).
  set (q := ratio_ok border (exhibit_count top)).
  destruct (slice_to_firstn n (filter q ranked)) as (k & ->).
  exists (skipn k (filter q ranked) ++ filter (fun x => negb (q x)) ranked).
  rewrite app_assoc, firstn_skipn.
  eapply perm_trans; [apply filter_partition_perm|].
  apply reversed_sorted_perm.
Qed.

Lemma filter_returns_input_museums_witness :
  exists dropped, Permutation ([entry_b; entry_a] ++ dropped) (values museums_tie).
Proof.
  exact (filter_returns_input_museums museums_tie border_default select_default
           _ eq_refl).
Defined.

(** X6: the filter divides by the number of exhibits of the first
    museum of the sort: on a dictionary that is not empty and whose
    entries all have no exhibit it raises [ZeroDivisionError]. *)
Theorem filter_without_exhibits_raises (museums : dict museum_entry)
    (border select : float) :
  museums <> [] ->
  Forall (fun m => exhibits m = []) (values museums) ->
  filter_relevant_museums museums border select = Raise ZeroDivisionError.
Proof.
  intros Hne Hall.
  pose proof (reversed_sorted_perm exhibit_count (values museums)) as Hperm.
  pose proof (reversed_sorted_length exhibit_count (values museums)) as Hlen.
  unfold filter_relevant_museums.
  destruct (reversed_sorted exhibit_count (values museums)) as [|top rest] eqn:Er.
  { destruct museums; [congruence | discriminate]. }
  assert (Htop : exhibits top = []).
  { rewrite Forall_forall in Hall. apply Hall.
    apply (Permutation_in _ Hperm). left; reflexivity. }
  cbv zeta. cbn [filter_r]. unfold ratio_test at 1, exhibit_count.
  rewrite Htop. reflexivity.
Qed.

Lemma filter_without_exhibits_raises_witness :
  filter_relevant_museums
    [(KInt 1, {| name := VStr "M1"; locale := VStr "CityA"; exhibits := [] |})]
    border_default select_default = Raise ZeroDivisionError.
Proof.
  apply filter_without_exhibits_raises.
  - discriminate.
  - repeat constructor.
Defined.

(** ** The groups *)

Lemma group_loop_hashable (museums : list museum_entry) :
  forall locales locales',
  group_loop locales museums = Ok locales' ->
  Forall (fun m => exists l, hash (locale m) = Ok l) museums.
Proof.
  induction museums as [|m ms IH]; intros locales locales' H; [constructor|].
  cbn [group_loop] in H. ok_inv H. constructor; [eauto | eapply IH; eassumption].
Qed.

Lemma group_by_locale_hashable (museums : list museum_entry) (limit : Z)
    (out : list (key * list museum_entry)) :
  group_by_locale museums limit = Ok out ->
  Forall (fun m => exists l, hash (locale m) = Ok l) museums.
Proof.
  unfold group_by_locale. intros H. ok_inv H.
  eapply group_loop_hashable; eassumption.
Qed.

Lemma has_locale_hash (l : key) (m : museum_entry) :
  has_locale l m = true <-> hash (locale m) = Ok l.
Proof.
  unfold has_locale, locale_key. destruct (hash (locale m)) as [k|x].
  - rewrite key_eqb_eq. split; congruence.
  - split; discriminate.
Qed.

Lemma locale_keys_In (l : key) (museums : list museum_entry) :
  In l (locale_keys museums) <-> exists m, In m museums /\ hash (locale m) = Ok l.
Proof.
  unfold locale_keys. rewrite in_flat_map. unfold locale_key. split.
  - intros (m & Hm & Hl). exists m. split; [assumption|].
    destruct (hash (locale m)); [destruct Hl as [<-|[]]; reflexivity | destruct Hl].
  - intros (m & Hm & Hl). exists m. rewrite Hl. cbn. auto.
Qed.

Lemma NoDup_firstn {A : Type} (k : nat) (l : list A) : NoDup l -> NoDup (firstn k l).
Proof.
  intros H. rewrite <- (firstn_skipn k l) in H. apply NoDup_app_remove_r in H.
  exact H.
Qed.

Lemma ranked_locales_perm (museums : list museum_entry) :
  Permutation
    (reversed_sorted (group_size museums) (first_seen (locale_keys museums)))
    (first_seen (locale_keys museums)).
Proof. apply reversed_sorted_perm. Qed.

(** X7: no location is returned twice, every group returned has a
    museum, and the museums of a group are those of the filtered sequence
    whose locale is the location of the group. *)
Theorem groups_are_distinct_and_inhabited (museums : list museum_entry)
    (limit : Z) (out : list (key * list museum_entry)) :
  group_by_locale museums limit = Ok out ->
  NoDup (map fst out) /\
  forall l ms, In (l, ms) out ->
    ms <> [] /\
    forall m, In m ms <-> In m museums /\ hash (locale m) = Ok l.
Proof.
  intros H. apply group_by_locale_Ok in H. cbv zeta in H. destruct H as (-> & _).
  set (ranked := reversed_sorted (group_size museums)
                   (first_seen (locale_keys museums))).
  destruct (slice_to_firstn (Z.min limit (Z.of_nat (length ranked))) ranked)
    as (k & ->).
  split.
  - rewrite map_map. cbn [fst]. rewrite map_id. apply NoDup_firstn.
    apply (Permutation_NoDup (Permutation_sym (ranked_locales_perm museums))).
    apply first_seen_NoDup.
  - intros l ms Hin. apply in_map_iff in Hin.
    destruct Hin as (l' & Heq & Hl'). injection Heq as <- <-.
    assert (Hm : forall m, In m (filter (has_locale l') museums) <->
                           In m museums /\ hash (locale m) = Ok l').
    { intros m. rewrite filter_In, has_locale_hash. reflexivity. }
    split; [|exact Hm].
    assert (Hl : In l' (locale_keys museums)).
    { apply first_seen_In. apply (Permutation_in _ (ranked_locales_perm museums)).
      fold ranked. rewrite <- (firstn_skipn k ranked). apply in_or_app; auto. }
    apply locale_keys_In in Hl. destruct Hl as (m & Hm1 & Hm2).
    intros Hnil. assert (Hin : In m (filter (has_locale l') museums))
      by (apply Hm; auto).
    rewrite Hnil in Hin. destruct Hin.
Qed.

Lemma groups_are_distinct_and_inhabited_witness :
  let museums := museums_three_cities in
  let out :=
    [(KStr "CityA", filter (has_locale (KStr "CityA")) museums);
     (KStr "CityC", filter (has_locale (KStr "CityC")) museums)] in
  NoDup (map fst out) /\
  forall l ms, In (l, ms) out ->
    ms <> [] /\
    forall m, In m ms <-> In m museums /\ hash (locale m) = Ok l.
Proof.
  exact (groups_are_distinct_and_inhabited museums_three_cities 2 _ eq_refl).
Defined.

Lemma flat_map_one_more {A B : Type} (eqb : A -> A -> bool) (g : A -> list B)
    (x : B) (a0 : A) (K : list A) :
  (forall a b, eqb a b = true <-> a = b) ->
  NoDup K -> In a0 K ->
  Permutation (flat_map (fun a => if eqb a0 a then x :: g a else g a) K)
              (x :: flat_map g K).
Proof.
  intros Heqb Hnd. induction Hnd as [|a K Hnin Hnd IH]; intros Hin; [destruct Hin|].
  cbn [flat_map]. destruct (eqb a0 a) eqn:E.
  - apply Heqb in E. subst a0. cbn [app]. constructor.
    apply Permutation_app_head.
    assert (Hext : forall b, In b K ->
              (if eqb a b then x :: g b else g b) = g b).
    { intros b Hb. destruct (eqb a b) eqn:Eb; [|reflexivity].
      apply Heqb in Eb. subst b. contradiction. }
    clear -Hext. induction K as [|b K IHK]; [constructor|].
    cbn [flat_map]. rewrite Hext by (left; reflexivity).
    apply Permutation_app_head. apply IHK. intros c Hc. apply Hext. right; assumption.
  - destruct Hin as [->|Hin].
    + assert (eqb a0 a0 = true) by (apply Heqb; reflexivity). congruence.
    + eapply perm_trans; [apply Permutation_app_head, IH, Hin|].
      apply Permutation_sym, Permutation_middle.
Qed.

Lemma groups_partition (museums : list museum_entry) :
  forall K, NoDup K ->
  (forall m, In m museums -> exists l, hash (locale m) = Ok l /\ In l K) ->
  Permutation (flat_map (fun l => filter (has_locale l) museums) K) museums.
Proof.
  induction museums as [|m ms IH]; intros K Hnd Hall.
  - cbn [filter]. clear. induction K; [constructor | assumption].
  - destruct (Hall m (or_introl eq_refl)) as (l0 & Hl0 & Hin0).
    eapply perm_trans.
    2: { constructor. apply (IH K Hnd). intros m' Hm'. apply Hall. right; assumption. }
    eapply perm_trans; [|apply (flat_map_one_more key_eqb _ m l0 K key_eqb_eq Hnd Hin0)].
    assert (Hext : forall l, filter (has_locale l) (m :: ms) =
                     if key_eqb l0 l then m :: filter (has_locale l) ms
                     else filter (has_locale l) ms).
    { intros l. cbn [filter]. unfold has_locale at 1, locale_key. rewrite Hl0.
      reflexivity. }
    clear -Hext. induction K as [|l K IHK]; [constructor|].
    cbn [flat_map]. rewrite Hext. apply Permutation_app_head. exact IHK.
Qed.

(** X8: with a limit that is at least the number of distinct locales
    nothing is cut: the groups returned hold, together, the museums of the
    filtered sequence, each once. *)
Theorem groups_cover_the_museums (museums : list museum_entry) (limit : Z)
    (out : list (key * list museum_entry)) :
  Z.of_nat (distinct_locales museums) <= limit ->
  group_by_locale museums limit = Ok out ->
  length out = distinct_locales museums /\
  Permutation (flat_map snd out) museums.
Proof.
  intros Hlimit H.
  pose proof (group_by_locale_hashable _ _ _ H) as Hhash.
  apply group_by_locale_Ok in H. cbv zeta in H. destruct H as (-> & _).
  set (K := first_seen (locale_keys museums)) in *.
  set (ranked := reversed_sorted (group_size museums) K).
  assert (Hlen : length ranked = distinct_locales museums)
    by (apply reversed_sorted_length).
  rewrite slice_to_nonneg by lia.
  replace (Z.to_nat (Z.min limit (Z.of_nat (length ranked)))) with (length ranked) by lia.
  rewrite firstn_all. split; [rewrite length_map; assumption|].
  rewrite flat_map_concat_map, map_map. cbn [snd]. rewrite <- flat_map_concat_map.
  eapply perm_trans.
  - apply Permutation_flat_map. apply (ranked_locales_perm museums).
  - apply groups_partition; [apply first_seen_NoDup|].
    intros m Hm. rewrite Forall_forall in Hhash.
    destruct (Hhash m Hm) as (l & Hl). exists l. split; [assumption|].
    apply first_seen_In, locale_keys_In. eauto.
Qed.

Lemma groups_cover_the_museums_witness :
  let museums := museums_three_cities in
  let out :=
    [(KStr "CityA", filter (has_locale (KStr "CityA")) museums);
     (KStr "CityC", filter (has_locale (KStr "CityC")) museums);
     (KStr "CityB", filter (has_locale (KStr "CityB")) museums)] in
  length out = distinct_locales museums /\
  Permutation (flat_map snd out) museums.
Proof.
  apply (groups_cover_the_museums museums_three_cities 7).
  - vm_compute. discriminate.
  - reflexivity.
Defined.

Lemma hash_Raise (v : value) (x : exn) : hash v = Raise x -> x = TypeError.
Proof. destruct v; simpl; intros H; try discriminate; injection H as <-; reflexivity. Qed.

(** X9: a museum whose locale cannot be hashed, a list or a dictionary,
    makes the grouping raise [TypeError], wherever it stands in the
    sequence. *)
Theorem unhashable_locale_raises (museums : list museum_entry) (limit : Z)
    (m : museum_entry) (x : exn) :
  In m museums -> hash (locale m) = Raise x ->
  group_by_locale museums limit = Raise TypeError.
Proof.
  intros Hin Hm. unfold group_by_locale.
  assert (H : forall locales, group_loop locales museums = Raise TypeError).
  { induction museums as [|m0 ms IH]; [destruct Hin|]. intros locales.
    cbn [group_loop]. destruct (hash (locale m0)) as [k|x0] eqn:E0.
    - cbn [rbind]. destruct Hin as [->|Hin]; [congruence | apply IH; assumption].
    - rewrite (hash_Raise _ _ E0). reflexivity. }
  rewrite H. reflexivity.
Qed.

Lemma unhashable_locale_raises_witness :
  group_by_locale museums_unhashable 7 = Raise TypeError.
Proof.
  apply (unhashable_locale_raises museums_unhashable 7
           {| name := VStr "M2"; locale := VList [VStr "CityB"];
              exhibits := [VStr "Coin"] |} TypeError).
  - right; left; reflexivity.
  - reflexivity.
Defined.

(** ** The pipeline as a whole *)

Lemma get_sorted_locales_Ok (query : string) (limit : Z) (w w' : world)
    (out : list (key * list museum_entry)) :
  get_sorted_locales query limit w = (w', Ok out) ->
  exists joined_ museums,
    get_museums_with_locales_and_exhibits query w = (w', Ok joined_) /\
    filter_relevant_museums joined_ border_default select_default = Ok museums /\
    group_by_locale museums limit = Ok out.
Proof.
  rewrite get_sorted_locales_eq.
  destruct (get_museums_with_locales_and_exhibits query w) as [w1 [joined_|x]];
    [|discriminate].
  intros H. injection H as <- H. ok_inv H. eauto.
Qed.

Lemma length_first_seen_le (l : list key) : (length (first_seen l) <= length l)%nat.
Proof.
  induction l as [|k l IH]; [reflexivity|]. cbn [first_seen length].
  pose proof (filter_length_le (fun k' => negb (key_eqb k k')) (first_seen l)). lia.
Qed.

Lemma length_valid_ids_le (es : list value) : (length (valid_ids es) <= length es)%nat.
Proof.
  induction es as [|e es IH]; [reflexivity|]. unfold valid_ids in *. cbn [flat_map].
  rewrite length_app. destruct (exhibit_key e) as [[k n]|]; cbn [length]; lia.
Qed.

Lemma length_names_of_le (k : key) (es : list value) :
  (length (names_of k es) <= length es)%nat.
Proof.
  induction es as [|e es IH]; [reflexivity|]. unfold names_of in *. cbn [flat_map].
  rewrite length_app. destruct (exhibit_key e) as [[k' n]|]; [|cbn [length]; lia].
  destruct (key_eqb k' k); cbn [length]; lia.
Qed.

(** What a join that returns hands to the filter: entries with
    exhibits, and no more entries or exhibits than the search result has
    documents. *)
Lemma join_result_sized (w w' : world) (query : string)
    (museums : dict museum_entry) :
  get_museums_with_locales_and_exhibits query w = (w', Ok museums) ->
  let es := exhibits_find (db w) query in
  (length museums <= length es)%nat /\
  Forall (fun m => exhibits m <> [] /\ (length (exhibits m) <= length es)%nat)
    (values museums).
Proof.
  intros Hrun es.
  destruct (join_spec _ _ _ _ Hrun) as (_ & Hnd & Hkeys & Hex & _).
  fold es in Hkeys, Hex. split.
  - replace (length museums) with (length (keys museums))
      by (unfold keys; apply length_map).
    apply Nat.le_trans with (length (valid_ids es)); [|apply length_valid_ids_le].
    apply NoDup_incl_length; [assumption|]. intros k Hk. apply Hkeys in Hk. tauto.
  - apply Forall_forall. intros m Hm.
    destruct (values_dict_find _ _ Hnd Hm) as (k & Hf).
    rewrite (Hex k m Hf). split; [|apply length_names_of_le].
    assert (Hin : In k (keys museums)) by (apply dict_find_In_keys; congruence).
    apply Hkeys in Hin. destruct Hin as (Hin & _).
    apply valid_ids_In in Hin. destruct Hin as (e & n & He & Hk).
    intros Hnil. pose proof (names_of_In k n e es He Hk) as Hn.
    rewrite Hnil in Hn. destruct Hn.
Qed.

(** With the borders of the code the filter returns, and returns the
    first museum of the sort first. *)
Lemma filter_keeps_the_top (museums : dict museum_entry) (border select : float) :
  museums <> [] ->
  python_sized museums ->
  Forall (fun m => exhibits m <> [] /\ python_sized (exhibits m)) (values museums) ->
  float_ge float_one border = true ->
  unit_float select = true ->
  exists top rest out',
    reversed_sorted exhibit_count (values museums) = top :: rest /\
    filter_relevant_museums museums border select = Ok (top :: out').
Proof.
  intros Hne Hsize Hentries Hborder Hselect.
  pose proof (reversed_sorted_perm exhibit_count (values museums)) as Hperm.
  pose proof (reversed_sorted_descending exhibit_count (values museums)) as Hdesc.
  pose proof (reversed_sorted_length exhibit_count (values museums)) as Hlen.
  unfold values in Hlen at 2. rewrite length_map in Hlen.
  assert (Hall : Forall (fun m => exhibits m <> [] /\ python_sized (exhibits m))
                   (reversed_sorted exhibit_count (values museums))).
  { rewrite Forall_forall in *. intros m Hm. apply Hentries.
    apply (Permutation_in _ Hperm Hm). }
  unfold filter_relevant_museums.
  destruct (reversed_sorted exhibit_count (values museums)) as [|top rest] eqn:Er.
  { destruct museums; [congruence | discriminate]. }
  assert (Htop : exhibits top <> []).
  { inversion Hall as [|? ? [H _] _]; assumption. }
  assert (Hratio : Forall (fun m => exists b,
            ratio_test border (exhibit_count top) m = Ok b) (top :: rest)).
  { apply Forall_forall. intros m Hm. rewrite Forall_forall in Hall.
    destruct (Hall m Hm) as (Hm1 & Hm2).
    destruct (Hall top (or_introl eq_refl)) as (Ht1 & Ht2).
    assert (Hle : (exhibit_count m <= exhibit_count top)%nat).
    { destruct Hm as [<-|Hm]; [lia|].
      inversion Hdesc as [|? ? _ Hfa]; subst.
      rewrite Forall_forall in Hfa. apply (Hfa m Hm). }
    unfold python_sized, sys_maxsize in Hm2, Ht2. fold (exhibit_count m) in Hm2.
    fold (exhibit_count top) in Ht2.
    assert (Hpos : (0 < exhibit_count m)%nat).
    { unfold exhibit_count. destruct (exhibits m); [congruence | cbn [length]; lia]. }
    unfold ratio_test.
    destruct (Z.of_nat (exhibit_count m)) as [|c|c] eqn:Ec; try lia.
    destruct (Z.of_nat (exhibit_count top)) as [|mx|mx] eqn:Emx; try lia.
    destruct (int_truediv_finite c mx) as (mq & eq & Hq); [lia | lia |].
    rewrite Hq. cbn [rbind]. eauto. }
  destruct (filter_r_total _ _ Hratio) as (res & Hres).
  pose proof (filter_r_Ok _ _ _ Hres) as Hres'.
  fold (ratio_ok border (exhibit_count top)) in Hres'.
  assert (Hsurv : res = top :: filter (ratio_ok border (exhibit_count top)) rest).
  { rewrite Hres'. cbn [filter]. unfold ratio_ok at 1.
    rewrite (ratio_test_top border top Htop), Hborder. reflexivity. }
  assert (Hk : (1 <= length res <= length museums)%nat).
  { split; [rewrite Hsurv; cbn [length]; lia|].
    rewrite Hres', <- Hlen. apply filter_length_le. }
  destruct (int_mul_float_ceil (Z.of_nat (length res)) select)
    as (x & n & Hx & Hn & Hn1); [|assumption|].
  { unfold python_sized, sys_maxsize in Hsize. lia. }
  exists top, rest, (firstn (Z.to_nat n - 1) (filter (ratio_ok border (exhibit_count top)) rest)).
  split; [reflexivity|].
  cbv zeta. rewrite Hres. cbn [rbind]. rewrite Hx. cbn [rbind]. rewrite Hn. cbn [rbind].
  rewrite slice_to_nonneg by lia. rewrite Hsurv.
  destruct (Z.to_nat n) as [|n'] eqn:En; [lia|].
  cbn [firstn]. replace (S n' - 1)%nat with n' by lia. reflexivity.
Qed.

(** X10: every museum that the pipeline returns is a museum of the
    collection, found under the code of a valid exhibit of the search
    result; it carries the name and the locale name of that museum and the
    names of the valid exhibits with that code, and stands in the group of
    its own locale. *)
Theorem returned_museums_are_joined (w w' : world) (query : string) (limit : Z)
    (out : list (key * list museum_entry)) :
  get_sorted_locales query limit w = (w', Ok out) ->
  let es := exhibits_find (db w) query in
  forall l ms m, In (l, ms) out -> In m ms ->
    hash (locale m) = Ok l /\
    exists k i,
      In k (valid_ids es) /\
      py_int (value_of_key k) = Ok i /\
      museum_fields (museums_find_one (db w) i) = Ok (locale m, name m) /\
      locale m <> VNone /\ name m <> VNone /\
      exhibits m = names_of k es.
Proof.
  intros Hrun es l ms m Hg Hm.
  apply get_sorted_locales_Ok in Hrun.
  destruct Hrun as (joined_ & museums & Hjoin & Hfilter & Hgroup).
  apply group_by_locale_Ok in Hgroup. cbv zeta in Hgroup. destruct Hgroup as (-> & _).
  apply in_map_iff in Hg. destruct Hg as (l' & Heq & _). injection Heq as <- <-.
  apply filter_In in Hm. destruct Hm as (Hm & Hl). apply has_locale_hash in Hl.
  split; [assumption|].
  apply filter_relevant_museums_Ok in Hfilter.
  destruct Hfilter as (top & rest & n & Hranked & _ & ->).
  destruct (slice_to_firstn n (filter (ratio_ok border_default (exhibit_count top))
                                 (top :: rest))) as (k0 & Hs).
  rewrite Hs in Hm.
  assert (Hm' : In m (values joined_)).
  { apply (Permutation_in _ (reversed_sorted_perm exhibit_count (values joined_))).
    rewrite Hranked.
    assert (Hf : In m (filter (ratio_ok border_default (exhibit_count top)) (top :: rest))).
    { rewrite <- (firstn_skipn k0 _). apply in_or_app; auto. }
    apply filter_In in Hf. tauto. }
  destruct (join_spec _ _ _ _ Hjoin) as (_ & Hnd & Hkeys & Hex & _).
  fold es in Hkeys, Hex.
  destruct (values_dict_find _ _ Hnd Hm') as (k & Hf).
  rewrite get_museums_eq in Hjoin.
  assert (Hfields := join_loop_fields _ _ _ _ _ Hjoin).
  cbn [db log] in Hfields.
  specialize (Hfields ltac:(intros k1 m1 H; discriminate) k m Hf).
  destruct Hfields as (i & Hi & Hmf).
  assert (Hin : In k (keys joined_)) by (apply dict_find_In_keys; congruence).
  apply Hkeys in Hin. destruct Hin as (Hin & Hres).
  exists k, i. split; [assumption|]. split; [assumption|]. split; [assumption|].
  unfold resolves in Hres. rewrite Hi in Hres. cbv zeta in Hres.
  rewrite Hmf in Hres. apply andb_prop in Hres. destruct Hres as (_ & Hres).
  apply andb_prop in Hres. destruct Hres as (H1 & H2).
  split; [intros E; rewrite E in H1; discriminate|].
  split; [intros E; rewrite E in H2; discriminate|].
  apply Hex. assumption.
Qed.

Lemma returned_museums_are_joined_witness :
  let es := exhibits_find store_a "vase" in
  let m := {| name := VStr "M1"; locale := VStr "CityA";
              exhibits := [VStr "Vase"; VStr "Urn"] |} in
  hash (locale m) = Ok (KStr "CityA") /\
  exists k i,
    In k (valid_ids es) /\
    py_int (value_of_key k) = Ok i /\
    museum_fields (museums_find_one store_a i) = Ok (locale m, name m) /\
    locale m <> VNone /\ name m <> VNone /\
    exhibits m = names_of k es.
Proof.
  apply (returned_museums_are_joined (fresh store_a) _ "vase" 7 _ eq_refl
           (KStr "CityA")
           [{| name := VStr "M1"; locale := VStr "CityA";
               exhibits := [VStr "Vase"; VStr "Urn"] |};
            {| name := VStr "M2"; locale := VStr "CityA";
               exhibits := [VStr "Coin"] |}]).
  - left. reflexivity.
  - left. reflexivity.
Defined.

Lemma returned_groups_bounds (w w' : world) (query : string)
    (limit : Z) (out : list (key * list museum_entry)) :
  python_sized (exhibits_find (db w) query) ->
  1 <= limit ->
  get_sorted_locales query limit w = (w', Ok out) ->
  1 <= Z.of_nat (length out) <= limit.
Proof.
  intros Hsize Hlimit Hrun.
  apply get_sorted_locales_Ok in Hrun.
  destruct Hrun as (joined_ & museums & Hjoin & Hfilter & Hgroup).
  destruct (join_result_sized _ _ _ _ Hjoin) as (Hlen & Hentries).
  unfold python_sized, sys_maxsize in Hsize.
  assert (Hne : joined_ <> []).
  { intros ->. discriminate Hfilter. }
  destruct (filter_keeps_the_top joined_ border_default select_default)
    as (top & rest & out' & _ & Hf); try reflexivity; try assumption.
  { unfold python_sized, sys_maxsize. lia. }
  { eapply Forall_impl; [|exact Hentries]. cbv beta. intros m (H1 & H2).
    split; [assumption|]. unfold python_sized, sys_maxsize. lia. }
  rewrite Hf in Hfilter. injection Hfilter as <-.
  pose proof (group_by_locale_hashable _ _ _ Hgroup) as Hhash.
  apply group_by_locale_Ok in Hgroup. cbv zeta in Hgroup. destruct Hgroup as (-> & _).
  set (ranked := reversed_sorted (group_size (top :: out'))
                   (first_seen (locale_keys (top :: out')))).
  assert (Hr : (1 <= length ranked)%nat).
  { unfold ranked. rewrite reversed_sorted_length.
    inversion Hhash as [|? ? (l & Hl) _]; subst.
    unfold locale_keys. cbn [flat_map]. unfold locale_key at 1. rewrite Hl.
    cbn [app first_seen length]. lia. }
  rewrite slice_to_nonneg by lia. rewrite length_map, length_firstn. lia.
Qed.

(** X11: a run of the pipeline that returns, with a limit of at least
    one, returns at least one group and at most [limit]: the empty list is
    never returned. *)
Theorem returned_groups_are_never_empty (w w' : world) (query : string)
    (limit : Z) (out : list (key * list museum_entry)) :
  python_sized (exhibits_find (db w) query) ->
  1 <= limit ->
  get_sorted_locales query limit w = (w', Ok out) ->
  1 <= Z.of_nat (length out) <= limit.
Proof. exact (returned_groups_bounds w w' query limit out). Qed.

Lemma returned_groups_are_never_empty_witness :
  1 <= Z.of_nat
         (length [(KStr "CityA",
                   [{| name := VStr "M1"; locale := VStr "CityA";
                       exhibits := [VStr "Vase"; VStr "Urn"] |};
                    {| name := VStr "M2"; locale := VStr "CityA";
                       exhibits := [VStr "Coin"] |}])]) <= 7.
Proof.
  apply (returned_groups_are_never_empty (fresh store_a)
           (log (FindOneMuseum 2) (log (FindOneMuseum 1)
              (log (FindExhibits "vase") (fresh store_a)))) "vase"%string 7).
  - unfold python_sized, sys_maxsize. simpl. lia.
  - lia.
  - reflexivity.
Defined.

Lemma filter_In_values (museums : dict museum_entry) (border select : float)
    (out : list museum_entry) (m : museum_entry) :
  filter_relevant_museums museums border select = Ok out ->
  In m out -> In m (values museums).
Proof.
  intros H Hm. apply filter_relevant_museums_Ok in H.
  destruct H as (top & rest & n & Hranked & _ & ->).
  destruct (slice_to_firstn n (filter (ratio_ok border (exhibit_count top))
                                 (top :: rest))) as (k0 & Hs).
  rewrite Hs in Hm.
  apply (Permutation_in _ (reversed_sorted_perm exhibit_count (values museums))).
  rewrite Hranked.
  assert (Hf : In m (filter (ratio_ok border (exhibit_count top)) (top :: rest))).
  { rewrite <- (firstn_skipn k0 _). apply in_or_app; auto. }
  apply filter_In in Hf. tauto.
Qed.

(** X12: the pipeline returns, without an error, on a search result
    that Python can hold, all of whose documents are well formed, that
    has a valid exhibit of a museum with a name and a locale, when the
    locales of the museums found can be hashed. *)
Theorem pipeline_returns (w : world) (query : string) (limit : Z) :
  let es := exhibits_find (db w) query in
  python_sized es ->
  Forall (fun e => well_formed (db w) e = true) es ->
  (exists k, In k (valid_ids es) /\ resolves (db w) k = true) ->
  (forall k i loc nam,
     In k (valid_ids es) -> py_int (value_of_key k) = Ok i ->
     museum_fields (museums_find_one (db w) i) = Ok (loc, nam) ->
     exists l, hash loc = Ok l) ->
  exists w' out, get_sorted_locales query limit w = (w', Ok out).
Proof.
  intros es Hsize Hwf (k0 & Hk0 & Hr0) Hhash.
  assert (Hjoin : exists w' joined_,
            get_museums_with_locales_and_exhibits query w = (w', Ok joined_)).
  { rewrite get_museums_eq. apply join_loop_total. exact Hwf. }
  destruct Hjoin as (w' & joined_ & Hjoin).
  destruct (join_result_sized _ _ _ _ Hjoin) as (Hlen & Hentries).
  destruct (join_spec _ _ _ _ Hjoin) as (_ & Hnd & Hkeys & _ & _).
  fold es in Hkeys, Hlen, Hentries.
  unfold python_sized, sys_maxsize in Hsize.
  assert (Hne : joined_ <> []).
  { intros ->. apply (proj2 (Hkeys k0)). auto. }
  destruct (filter_keeps_the_top joined_ border_default select_default)
    as (top & rest & out' & _ & Hf); try reflexivity; try assumption.
  { unfold python_sized, sys_maxsize. lia. }
  { eapply Forall_impl; [|exact Hentries]. cbv beta. intros m (H1 & H2).
    split; [assumption|]. unfold python_sized, sys_maxsize. lia. }
  assert (Hloc : Forall (fun m => locale_key m <> None) (top :: out')).
  { apply Forall_forall. intros m Hm.
    pose proof (filter_In_values _ _ _ _ m Hf Hm) as Hv.
    destruct (values_dict_find _ _ Hnd Hv) as (k & Hfk).
    pose proof Hjoin as Hjoin'. rewrite get_museums_eq in Hjoin'.
    assert (Hfields := join_loop_fields _ _ _ _ _ Hjoin').
    cbn [db log] in Hfields.
    specialize (Hfields ltac:(intros k1 m1 H; discriminate) k m Hfk).
    destruct Hfields as (i & Hi & Hmf).
    assert (Hin : In k (keys joined_)) by (apply dict_find_In_keys; congruence).
    apply Hkeys in Hin. destruct Hin as (Hin & _).
    destruct (Hhash k i _ _ Hin Hi Hmf) as (l & Hl).
    unfold locale_key. rewrite Hl. discriminate. }
  destruct (group_loop_total (top :: out') [] Hloc) as (locales & Hg).
  exists w'. eexists. rewrite get_sorted_locales_eq, Hjoin, Hf. cbn [rbind].
  unfold group_by_locale. rewrite Hg. cbn [rbind]. reflexivity.
Qed.

Lemma pipeline_returns_witness :
  exists w' out, get_sorted_locales "vase" 7 (fresh store_a) = (w', Ok out).
Proof.
  apply (pipeline_returns (fresh store_a) "vase" 7).
  - unfold python_sized, sys_maxsize. simpl. lia.
  - repeat constructor.
  - exists (KInt 1). split; [left; reflexivity | reflexivity].
  - intros k i loc nam Hk Hi Hmf. cbn in Hk.
    destruct Hk as [<-|[<-|[<-|[]]]]; cbn in Hi; injection Hi as <-;
      cbn in Hmf; injection Hmf as <- _; eexists; reflexivity.
Defined.

(** ** Printing *)

Lemma print_each_printable {A : Type} (f : A -> printed) (g : A -> list string)
    (l : list A) :
  Forall (fun x => f x = (g x, Ok tt)) l ->
  print_each f l = (flat_map g l, Ok tt).
Proof.
  induction 1 as [|x l Hx Hl IH]; [reflexivity|].
  cbn [print_each flat_map]. rewrite Hx, IH. reflexivity.
Qed.

Lemma is_str_text (v : value) : is_str v = true -> v = VStr (text v).
Proof. destruct v; try discriminate. reflexivity. Qed.

Lemma print_museum_printable (m : museum_entry) :
  is_str (name m) = true ->
  Forall (fun e => is_str e = true) (firstn 5 (exhibits m)) ->
  print_museum m = (museum_lines m, Ok tt).
Proof.
  intros Hn He. unfold print_museum, museum_lines.
  rewrite (is_str_text _ Hn) at 1. cbn [str_add print and_then].
  rewrite slice_to_nonneg by lia.
  assert (Hs : firstn (Z.to_nat (Z.min 5 (Z.of_nat (length (exhibits m)))))
                 (exhibits m) = firstn 5 (exhibits m)).
  { destruct (Z.min_spec 5 (Z.of_nat (length (exhibits m)))) as [[H ->]|[H ->]].
    - reflexivity.
    - rewrite Nat2Z.id, firstn_all. symmetry. apply firstn_all2. lia. }
  rewrite Hs.
  rewrite (print_each_printable _ (fun e => [("    " ++ text e)%string])).
  - cbn [fst snd app].
    assert (Hm : forall l : list value,
              flat_map (fun e => [("    " ++ text e)%string]) l =
              map (fun e => ("    " ++ text e)%string) l).
    { induction l as [|e l IH]; [reflexivity|].
      cbn [flat_map map app]. rewrite IH. reflexivity. }
    rewrite Hm. reflexivity.
  - eapply Forall_impl; [|exact He]. cbv beta. intros e H.
    rewrite (is_str_text _ H) at 1. reflexivity.
Qed.

Lemma print_locale_printable (locale : key * list museum_entry) :
  is_str (value_of_key (fst locale)) = true ->
  Forall (fun m =>
    is_str (name m) = true /\
    Forall (fun e => is_str e = true) (firstn 5 (exhibits m))) (snd locale) ->
  print_locale locale = (locale_lines locale, Ok tt).
Proof.
  intros Hl Hms. unfold print_locale, locale_lines, locale_title.
  rewrite (print_each_printable _ museum_lines).
  - destruct (value_of_key (fst locale)); try discriminate.
    destruct (length (snd locale) =? 1)%nat; reflexivity.
  - eapply Forall_impl; [|exact Hms]. cbv beta. intros m (H1 & H2).
    apply print_museum_printable; assumption.
Qed.

(** X13: when the names of the locations, the names of their museums
    and the first five exhibit names of every museum are strings,
    [print_locales] raises nothing and prints the header with the number
    of locations, then for each location its title, with the singular
    form for one museum, and for each of its museums the name and the
    first five exhibit names, in their order; further exhibits are neither
    printed nor looked at. *)
Theorem print_locales_output (w w' : world) (query : string)
    (locales : list (key * list museum_entry)) :
  get_sorted_locales query 7 w = (w', Ok locales) ->
  printable locales ->
  print_locales query w =
    (w', (header (length locales) :: flat_map locale_lines locales, Ok tt)).
Proof.
  intros Hrun Hp. unfold print_locales. rewrite Hrun.
  rewrite (print_each_printable _ locale_lines).
  - reflexivity.
  - eapply Forall_impl; [|exact Hp]. cbv beta. intros locale (H1 & H2).
    apply print_locale_printable; assumption.
Qed.

Lemma print_locales_output_witness :
  snd (print_locales "vase" (fresh store_six)) =
    (header 1 ::
     flat_map locale_lines
       [(KStr "CityA",
         [{| name := VStr "M1"; locale := VStr "CityA";
             exhibits := [VStr "E1"; VStr "E2"; VStr "E3"; VStr "E4";
                          VStr "E5"; VInt 6] |}])], Ok tt).
Proof.
  rewrite (print_locales_output (fresh store_six) _ "vase" _ eq_refl).
  - reflexivity.
  - repeat constructor.
Defined.

(** X14: [print_locales] prints nothing when the pipeline raises, and
    raises the same error; when the pipeline returns, on a search result
    that Python can hold, the first line printed is the header, and the
    number of locations in it is between 1 and 7. *)
Theorem print_locales_header (w : world) (query : string) :
  python_sized (exhibits_find (db w) query) ->
  (forall x,
     snd (get_sorted_locales query 7 w) = Raise x ->
     snd (print_locales query w) = ([], Raise x)) /\
  (forall locales,
     snd (get_sorted_locales query 7 w) = Ok locales ->
     (1 <= length locales <= 7)%nat /\
     exists rest,
       fst (snd (print_locales query w)) = header (length locales) :: rest).
Proof.
  intros Hsize. unfold print_locales.
  destruct (get_sorted_locales query 7 w) as [w' [locales|x]] eqn:Hrun;
    cbn [snd fst]; split; try discriminate.
  - intros locales' [= <-].
    pose proof (returned_groups_bounds w w' query 7 locales Hsize
                  ltac:(lia) Hrun).
    split; [lia|].
    destruct (print_each print_locale locales) as [out r].
    cbn [print and_then fst app]. eexists. reflexivity.
  - intros x' [= <-]. reflexivity.
Qed.

Lemma print_locales_header_witness :
  (forall x,
     snd (get_sorted_locales "vase" 7 (fresh store_a)) = Raise x ->
     snd (print_locales "vase" (fresh store_a)) = ([], Raise x)) /\
  (forall locales,
     snd (get_sorted_locales "vase" 7 (fresh store_a)) = Ok locales ->
     (1 <= length locales <= 7)%nat /\
     exists rest,
       fst (snd (print_locales "vase" (fresh store_a))) =
       header (length locales) :: rest).
Proof.
  apply (print_locales_header (fresh store_a) "vase").
  unfold python_sized, sys_maxsize. simpl. lia.
Defined.

Lemma print_each_stops {A : Type} (f : A -> printed) (g : A -> list string)
    (before rest : list A) (x : A) (out : list string) (e : exn) :
  Forall (fun y => f y = (g y, Ok tt)) before ->
  f x = (out, Raise e) ->
  print_each f (before ++ x :: rest) = (flat_map g before ++ out, Raise e).
Proof.
  intros Hb Hx. induction Hb as [|y l Hy Hl IH].
  - cbn [app print_each flat_map and_then]. rewrite Hx. reflexivity.
  - cbn [app print_each flat_map]. rewrite Hy, IH. cbn [and_then fst snd].
    rewrite app_assoc. reflexivity.
Qed.

(** X15: a museum name that is no string stops the printing with a
    TypeError at its line: the header, the lines of the locations before,
    the title of its location and the lines of the museums before it have
    been printed, and nothing after them. *)
Theorem non_text_name_stops_printing (w w' : world) (query : string)
    (before rest : list (key * list museum_entry)) (k : key)
    (museums_before museums_after : list museum_entry) (m : museum_entry) :
  let locale := (k, museums_before ++ m :: museums_after) in
  get_sorted_locales query 7 w = (w', Ok (before ++ locale :: rest)) ->
  printable before ->
  is_str (value_of_key k) = true ->
  Forall (fun m' =>
    is_str (name m') = true /\
    Forall (fun e => is_str e = true) (firstn 5 (exhibits m')))
    museums_before ->
  is_str (name m) = false ->
  print_locales query w =
    (w', (header (length (before ++ locale :: rest)) ::
          flat_map locale_lines before ++
          locale_title locale :: flat_map museum_lines museums_before,
          Raise TypeError)).
Proof.
  intros locale Hrun Hp Hk Hms Hm. unfold print_locales. rewrite Hrun.
  rewrite (print_each_stops print_locale locale_lines before rest locale
             (locale_title locale :: flat_map museum_lines museums_before)
             TypeError).
  - reflexivity.
  - eapply Forall_impl; [|exact Hp]. cbv beta. intros l (H1 & H2).
    apply print_locale_printable; assumption.
  - unfold print_locale, locale, locale_title. cbn [fst snd].
    rewrite (print_each_stops print_museum museum_lines museums_before
               museums_after m [] TypeError).
    + rewrite app_nil_r. destruct (value_of_key k); try discriminate.
      destruct (length (museums_before ++ m :: museums_after) =? 1)%nat;
        reflexivity.
    + eapply Forall_impl; [|exact Hms]. cbv beta. intros m' (H1 & H2).
      apply print_museum_printable; assumption.
    + unfold print_museum. destruct (name m); try discriminate; reflexivity.
Qed.

Lemma non_text_name_stops_printing_witness :
  snd (print_locales "vase" (fresh store_numbered)) =
    ([header 1; locale_title (KStr "CityA",
                  [{| name := VInt 17; locale := VStr "CityA";
                      exhibits := [VStr "Vase"] |}])],
     Raise TypeError).
Proof.
  rewrite (non_text_name_stops_printing (fresh store_numbered) _ "vase"
             [] [] (KStr "CityA") [] []
             {| name := VInt 17; locale := VStr "CityA";
                exhibits := [VStr "Vase"] |} eq_refl).
  - reflexivity.
  - constructor.
  - reflexivity.
  - constructor.
  - reflexivity.
Defined.
